(** * Watchdog driver (Watchdog.h / Watchdog.cpp), ST_NUCLEO build

    A shallow embedding of the [Watchdog] class as it is compiled with
    [#define ST_NUCLEO] (the [LPC] branch is commented out in the source),
    and the properties of its timeout-to-register computation.

    The C [float] is IEEE-754 binary32.  It is modelled with the Standard
    Library's [spec_float] at precision 24 and maximal exponent 128, whose
    operations round to nearest, ties to even. *)

From Stdlib Require Import ZArith List Bool Lia QArith Qround Qabs.
From Stdlib Require Import Floats.SpecFloat.
Import ListNotations.

Local Open Scope Z_scope.

(** ** binary32 arithmetic as the source uses it *)

Module Float32.

Definition prec : Z := 24.
Definition emax : Z := 128.

Definition float : Type := spec_float.

(** A value of the C type [float]: canonical mantissa, exponent in range. *)
Definition valid (x : float) : bool := valid_binary prec emax x.

(** [float * float] *)
Definition mul (x y : float) : float := SFmul prec emax x y.

(** [float / float] *)
Definition div (x y : float) : float := SFdiv prec emax x y.

(** [float < float] *)
Definition ltb (x y : float) : bool := SFltb x y.

(** [float <= float] *)
Definition leb (x y : float) : bool := SFleb x y.

(** The implicit conversion [int -> float] (round to nearest even). *)
Definition of_int (n : Z) : float := binary_normalize prec emax n 0 false.

(** Integer part of a positive finite float, rounding toward zero. *)
Definition trunc_pos (m : positive) (e : Z) : Z := Z.shiftl (Zpos m) e.

(** The cast [(uint32_t) float].  Truncation toward zero where the
    truncated value fits 32 bits.  ISO C++ leaves the other cases
    undefined; the Cortex-M target of the ST_NUCLEO build saturates
    (negative values and NaN give 0, too large values give 0xFFFFFFFF),
    and this is what is modelled.  [to_uint32_defined] tells the two
    situations apart. *)
Definition to_uint32 (x : float) : Z :=
  match x with
  | S754_zero _ => 0
  | S754_nan => 0
  | S754_infinity s => if s then 0 else 0xFFFFFFFF
  | S754_finite true _ _ => 0
  | S754_finite false m e => Z.min (trunc_pos m e) 0xFFFFFFFF
  end.

Definition to_uint32_defined (x : float) : bool :=
  match x with
  | S754_zero _ => true
  | S754_nan => false
  | S754_infinity _ => false
  | S754_finite true m e => trunc_pos m e =? 0
  | S754_finite false m e => trunc_pos m e <=? 0xFFFFFFFF
  end.

(** The exact rational value of a finite float (0 for the others). *)
Definition to_Q (x : float) : Q :=
  match x with
  | S754_finite s m e =>
      let n := if s then Zneg m else Zpos m in
      if 0 <=? e then inject_Z (n * 2 ^ e)
      else Qmake n (Z.to_pos (2 ^ (- e)))
  | _ => 0%Q
  end.

(** Float literals of the examples. *)
Definition zero : float := S754_zero false.
Definition one : float := S754_finite false 8388608 (-23).          (* 1.0f *)
Definition minus_one : float := S754_finite true 8388608 (-23).     (* -1.0f *)
Definition hundred : float := S754_finite false 13107200 (-17).     (* 100.0f *)
Definition eleven : float := S754_finite false 11534336 (-20).      (* 11.0f *)
Definition below_step : float := S754_finite false 12167168 (-24).  (* 0.7252197265625f *)
Definition above_step : float := S754_finite false 12169216 (-24).  (* 0.725341796875f *)

End Float32.

(** The assignment of a [uint32_t] to a [uint16_t] keeps the low 16 bits. *)
Definition to_uint16 (n : Z) : Z := n mod 2 ^ 16.

(** ** The IWDG peripheral and the board *)

(** Modelled from the spec: the selector macros [IWDG_PRESCALER_4] ...
    [IWDG_PRESCALER_256] are declared in the vendor header, which is not
    among the sources; each prescaler "maps to a distinct hardware-encoded
    selector", so they are the seven constructors of an enumeration. *)
Inductive IWDG_PRESCALER : Type :=
| IWDG_PRESCALER_4
| IWDG_PRESCALER_8
| IWDG_PRESCALER_16
| IWDG_PRESCALER_32
| IWDG_PRESCALER_64
| IWDG_PRESCALER_128
| IWDG_PRESCALER_256.

(** Modelled from the spec: the register block [IWDG] of the vendor header,
    "a key-register", "a prescaler-select register" and "a 12-bit reload
    register".  Each field holds the last value the driver stored to it. *)
Record IWDG_TypeDef : Type := {
  KR : Z;
  PR : IWDG_PRESCALER;
  RLR : Z
}.

(** One store to a register of the peripheral. *)
Inductive reg_write : Type :=
| Write_KR (v : Z)
| Write_PR (c : IWDG_PRESCALER)
| Write_RLR (v : Z).

(** One line printed by [Configure]: prescaler, reload value, timeout. *)
Record log_line : Type := {
  log_prescaler : Z;
  log_reload : Z;
  log_timeout : Float32.float
}.

(** What the driver can observe and change outside of its own object:
    the reset flag [RCC_FLAG_IWDGRST], the peripheral registers, the
    stores made to them (oldest first) and the console. *)
Record board : Type := {
  RCC_FLAG_IWDGRST : bool;
  IWDG : IWDG_TypeDef;
  stores : list reg_write;
  console : list log_line
}.

Definition store (w : reg_write) (b : board) : board :=
  let r := IWDG b in
  {| RCC_FLAG_IWDGRST := RCC_FLAG_IWDGRST b;
     IWDG := match w with
             | Write_KR v => {| KR := v; PR := PR r; RLR := RLR r |}
             | Write_PR c => {| KR := KR r; PR := c; RLR := RLR r |}
             | Write_RLR v => {| KR := KR r; PR := PR r; RLR := v |}
             end;
     stores := stores b ++ [w];
     console := console b |}.

Definition printf (l : log_line) (b : board) : board :=
  {| RCC_FLAG_IWDGRST := RCC_FLAG_IWDGRST b;
     IWDG := IWDG b;
     stores := stores b;
     console := console b ++ [l] |}.

(** ** The class *)

Record Watchdog : Type := { wdreset : bool }.

(** [Watchdog::Watchdog()].  In the ST_NUCLEO branch the test of
    [__HAL_RCC_GET_FLAG(RCC_FLAG_IWDGRST)] is commented out and the member
    is set to [false]. *)
Definition Watchdog_new (b : board) : Watchdog * board :=
  ({| wdreset := false |}, b).

(** The constructor of the LPC branch, which is not compiled:
    [wdreset = (LPC_WDT->WDMOD >> 2) & 1]. *)
Definition Watchdog_new_LPC (WDMOD : Z) : Watchdog :=
  {| wdreset := Z.testbit WDMOD 2 |}.

Definition LsiFreq : Z := 45000.

(** [timeout * (LsiFreq/p)]: the quotient of the two [int]s is converted to
    [float] for the product. *)
Definition counts (timeout : Float32.float) (p : Z) : Float32.float :=
  Float32.mul timeout (Float32.of_int (Z.quot LsiFreq p)).

(** The chain of comparisons of [Configure]; the pair is
    [(PrescalerCode, Prescaler)].  Each bound is an [int] literal, converted
    to [float] for the comparison. *)
Definition select_prescaler (timeout : Float32.float) : IWDG_PRESCALER * Z :=
  if Float32.ltb (counts timeout 4) (Float32.of_int 0x7FF) then (IWDG_PRESCALER_4, 4)
  else if Float32.ltb (counts timeout 8) (Float32.of_int 0xFF0) then (IWDG_PRESCALER_8, 8)
  else if Float32.ltb (counts timeout 16) (Float32.of_int 0xFF0) then (IWDG_PRESCALER_16, 16)
  else if Float32.ltb (counts timeout 32) (Float32.of_int 0xFF0) then (IWDG_PRESCALER_32, 32)
  else if Float32.ltb (counts timeout 64) (Float32.of_int 0xFF0) then (IWDG_PRESCALER_64, 64)
  else if Float32.ltb (counts timeout 128) (Float32.of_int 0xFF0) then (IWDG_PRESCALER_128, 128)
  else (IWDG_PRESCALER_256, 256).

Definition PrescalerCode (timeout : Float32.float) : IWDG_PRESCALER :=
  fst (select_prescaler timeout).

Definition Prescaler (timeout : Float32.float) : Z :=
  snd (select_prescaler timeout).

(** [ReloadValue = (uint32_t)(timeout * (LsiFreq/Prescaler))], stored in a
    [uint16_t]. *)
Definition ReloadValue (timeout : Float32.float) : Z :=
  to_uint16 (Float32.to_uint32 (counts timeout (Prescaler timeout))).

(** [Calculated_timeout = ((float)(Prescaler * ReloadValue)) / LsiFreq] *)
Definition Calculated_timeout (timeout : Float32.float) : Float32.float :=
  Float32.div (Float32.of_int (Prescaler timeout * ReloadValue timeout))
              (Float32.of_int LsiFreq).

(** [Watchdog::Service()] *)
Definition Service (this : Watchdog) (b : board) : Watchdog * board :=
  (this, store (Write_KR 0xAAAA) b).

(** [Watchdog::Configure(float timeout)] *)
Definition Configure (this : Watchdog) (timeout : Float32.float) (b : board)
  : Watchdog * board :=
  let b := printf {| log_prescaler := Prescaler timeout;
                     log_reload := ReloadValue timeout;
                     log_timeout := Calculated_timeout timeout |} b in
  let b := store (Write_KR 0x5555) b in
  let b := store (Write_PR (PrescalerCode timeout)) b in
  let b := store (Write_RLR (ReloadValue timeout)) b in
  let b := store (Write_KR 0xAAAA) b in
  let b := store (Write_KR 0xCCCC) b in
  Service this b.

(** [Watchdog::WatchdogCausedReset()] *)
Definition WatchdogCausedReset (this : Watchdog) : bool := wdreset this.

(** A board as it could be right after a reset. *)
Definition board0 (iwdgrst : bool) : board :=
  {| RCC_FLAG_IWDGRST := iwdgrst;
     IWDG := {| KR := 0; PR := IWDG_PRESCALER_4; RLR := 0xFFF |};
     stores := [];
     console := [] |}.

(** A sequence of calls made on one instance. *)
Inductive call : Type :=
| Call_Configure (timeout : Float32.float)
| Call_Service.

Definition run_call (c : call) (st : Watchdog * board) : Watchdog * board :=
  match c with
  | Call_Configure timeout => Configure (fst st) timeout (snd st)
  | Call_Service => Service (fst st) (snd st)
  end.

Definition run (cs : list call) (st : Watchdog * board) : Watchdog * board :=
  fold_left (fun st c => run_call c st) cs st.

(** ** The vocabulary of the specification *)

(** The prescalers in the order in which [Configure] tries them, the
    selector of each and the bound its count is compared with. *)
Definition prescalers : list Z := [4; 8; 16; 32; 64; 128; 256].

Definition selector (p : Z) : IWDG_PRESCALER :=
  if p =? 4 then IWDG_PRESCALER_4
  else if p =? 8 then IWDG_PRESCALER_8
  else if p =? 16 then IWDG_PRESCALER_16
  else if p =? 32 then IWDG_PRESCALER_32
  else if p =? 64 then IWDG_PRESCALER_64
  else if p =? 128 then IWDG_PRESCALER_128
  else IWDG_PRESCALER_256.

Definition bound (p : Z) : Z := if p =? 4 then 0x7FF else 0xFF0.

Definition bound_holds (timeout : Float32.float) (p : Z) : bool :=
  Float32.ltb (counts timeout p) (Float32.of_int (bound p)).

(** A timeout is positive when [0 < timeout] holds as a comparison of
    floats, and realizable when the count of the prescaler that
    [Configure] selects is below that prescaler's bound. *)
Definition positive_timeout (timeout : Float32.float) : bool :=
  Float32.ltb Float32.zero timeout.

Definition realizable (timeout : Float32.float) : bool :=
  bound_holds timeout (Prescaler timeout).

(** A call of [Configure] that would be refused before it touches the
    peripheral leaves the list of stores as it was. *)
Definition touches_no_register (timeout : Float32.float) : Prop :=
  forall (w : Watchdog) (b : board),
    stores (snd (Configure w timeout b)) = stores b.

(** The six stores of [Configure], the last one made by [Service]. *)
Definition Configure_stores (timeout : Float32.float) : list reg_write :=
  [Write_KR 0x5555; Write_PR (PrescalerCode timeout);
   Write_RLR (ReloadValue timeout); Write_KR 0xAAAA; Write_KR 0xCCCC;
   Write_KR 0xAAAA].

(** The timeout that the programmed pair achieves, as an exact rational:
    [(Prescaler * ReloadValue) / LsiFreq]; and one tick of the prescaled
    clock. *)
Definition achieved (timeout : Float32.float) : Q :=
  (inject_Z (Prescaler timeout * ReloadValue timeout) / inject_Z LsiFreq)%Q.

Definition tick (timeout : Float32.float) : Q :=
  (inject_Z (Prescaler timeout) / inject_Z LsiFreq)%Q.

(** The achieved timeout is within one tick of the requested one. *)
Definition within_one_tick (timeout : Float32.float) : Prop :=
  (achieved timeout <= Float32.to_Q timeout + tick timeout)%Q /\
  (Float32.to_Q timeout - tick timeout <= achieved timeout)%Q.

(** The product of the programmed prescaler and reload value. *)
Definition product (timeout : Float32.float) : Z :=
  Prescaler timeout * ReloadValue timeout.

(** ** Rounding to binary32, on integers *)

(** [rne a j] is [a / 2^j] rounded to the nearest integer, ties to even. *)
Definition rne (a j : Z) : Z :=
  let q := a / 2 ^ j in
  match 2 * (a mod 2 ^ j) ?= 2 ^ j with
  | Lt => q
  | Eq => if Z.even q then q else q + 1
  | Gt => q + 1
  end.

(** What a record holds after [n] steps of [shr_1] from [D / 2]. *)
Definition shr_inv (D n : Z) (x : shr_record) : Prop :=
  shr_m x = D / 2 ^ (n + 1) /\
  shr_r x = Z.testbit D n /\
  shr_s x = negb (D mod 2 ^ n =? 0).

(** The exponent of the binary32 grid on which the value [M * 2^E] is
    rounded. *)
Definition rexp (M E : Z) : Z :=
  fexp Float32.prec Float32.emax (Zdigits2 M + E).

(** The float made from a rounded mantissa [m <= 2^24] at exponent [e]. *)
Definition round_finish (sx : bool) (m e : Z) : spec_float :=
  if m =? 2 ^ 24 then
    if e + 1 <=? 104 then S754_finite sx 8388608 (e + 1) else S754_infinity sx
  else
    match m with
    | Z0 => S754_zero sx
    | Zpos p => if e <=? 104 then S754_finite sx p e else S754_infinity sx
    | Zneg _ => S754_nan
    end.

(** The mantissa of [a * 2^e] rounded to binary32, on the grid [rexp a e]. *)
Definition rmant (a e : Z) : Z := rne a (rexp a e - e).

(** The integer part of the rounded value, where the grid is finer than 1. *)
Definition rfloor (a e : Z) : Z := rmant a e / 2 ^ (- rexp a e).

(** ** Further vocabulary: finite timeouts and sequences of calls *)

(** A timeout that is a number: zero or a finite float. *)
Definition finite_timeout (timeout : Float32.float) : bool :=
  match timeout with
  | S754_zero _ | S754_finite _ _ _ => true
  | S754_infinity _ | S754_nan => false
  end.

(** The exact value of [timeout * (LsiFreq/p)], before any rounding. *)
Definition exact_counts (timeout : Float32.float) (p : Z) : Q :=
  (Float32.to_Q timeout * inject_Z (Z.quot LsiFreq p))%Q.

(** The specification's rule, in its own words: the count of [p] is the
    number [timeout * (base_clock_hz / p)], a prescaler is admissible when
    its count is strictly below its bound, and the first admissible
    prescaler of the ordered set is chosen.  [spec_counts] takes the
    quotient as the specification's example does (45000/16 = 2812.5);
    [exact_prescaler] takes the integer quotient of the code. *)
Definition spec_counts (timeout : Float32.float) (p : Z) : Q :=
  (Float32.to_Q timeout * (inject_Z LsiFreq / inject_Z p))%Q.

Definition spec_admissible (timeout : Float32.float) (p : Z) : bool :=
  negb (Qle_bool (inject_Z (bound p)) (spec_counts timeout p)).

Definition spec_prescaler (timeout : Float32.float) : option Z :=
  find (spec_admissible timeout) prescalers.

Definition exact_admissible (timeout : Float32.float) (p : Z) : bool :=
  negb (Qle_bool (inject_Z (bound p)) (exact_counts timeout p)).

Definition exact_prescaler (timeout : Float32.float) : option Z :=
  find (exact_admissible timeout) prescalers.

(** Half the spacing of binary32 just below the bound of [p]: [2^-14]
    below 0x7FF = 2047, [2^-13] below 0xFF0 = 4080.  A product at or above
    the bound minus this half spacing is rounded to the bound or beyond. *)
Definition half_ulp_below (p : Z) : Q := if p =? 4 then 1 # 16384 else 1 # 8192.

(** Floats next to the bounds of prescalers 8 and 16: 0.725333571434021f
    (bits 0x3F39AF72) and 1.45092451572418f. *)
Definition below_bound_8 : Float32.float := S754_finite false 12169074 (-24).
Definition below_bound_16 : Float32.float := S754_finite false 12171237 (-23).

(** Floats on either side of the steps from prescaler 64 to 128
    (5.802734375f, 5.8056640625f) and from 128 to 256 (11.62109375f,
    11.625f). *)
Definition below_step_128 : Float32.float := S754_finite false 12169216 (-21).
Definition above_step_128 : Float32.float := S754_finite false 12175360 (-21).
Definition below_step_256 : Float32.float := S754_finite false 12185600 (-20).
Definition above_step_256 : Float32.float := S754_finite false 12189696 (-20).

(** The pairs of prescalers between which the integer quotient
    [LsiFreq / p] is not halved exactly: 5625 and 2812, 703 and 351,
    351 and 175. *)
Definition inexact_steps : list (Z * Z) := [(8, 16); (64, 128); (128, 256)].

(** The timeout 400.0f, whose count for prescaler 256 is 70000. *)
Definition timeout_400 : Float32.float := S754_finite false 13107200 (-15).

(** The stores that one call makes. *)
Definition call_stores (c : call) : list reg_write :=
  match c with
  | Call_Configure timeout => Configure_stores timeout
  | Call_Service => [Write_KR 0xAAAA]
  end.

(** The timeout of the last [Configure] of a sequence of calls, if any. *)
Fixpoint last_Configure (cs : list call) : option Float32.float :=
  match cs with
  | [] => None
  | c :: cs' =>
      match last_Configure cs' with
      | Some t => Some t
      | None => match c with
                | Call_Configure t => Some t
                | Call_Service => None
                end
      end
  end.

(** * Properties *)

(** ** Rounding to nearest even *)

Lemma rne_lower (a j : Z) : a / 2 ^ j <= rne a j.
Proof.
  unfold rne. destruct (2 * (a mod 2 ^ j) ?= 2 ^ j); try lia.
  destruct (Z.even (a / 2 ^ j)); lia.
Qed.

Lemma rne_upper (a j : Z) : rne a j <= a / 2 ^ j + 1.
Proof.
  unfold rne. destruct (2 * (a mod 2 ^ j) ?= 2 ^ j); try lia.
  destruct (Z.even (a / 2 ^ j)); lia.
Qed.

Lemma rne_exact (a j : Z) : 0 <= j -> a mod 2 ^ j = 0 -> rne a j = a / 2 ^ j.
Proof.
  intros Hj H. unfold rne. rewrite H.
  assert (0 < 2 ^ j) by (apply Z.pow_pos_nonneg; lia).
  destruct (Z.compare_spec (2 * 0) (2 ^ j)); try lia.
Qed.

Lemma rne_0 (a : Z) : rne a 0 = a.
Proof.
  rewrite rne_exact; try lia.
  - now rewrite Z.pow_0_r, Z.div_1_r.
  - now rewrite Z.pow_0_r, Z.mod_1_r.
Qed.

(** Rounding never goes beyond a multiple of the grid that bounds [a]. *)
Lemma rne_le_multiple (a j N : Z) : 0 <= j -> a <= N * 2 ^ j -> rne a j <= N.
Proof.
  intros Hj H.
  assert (Hp : 0 < 2 ^ j) by (apply Z.pow_pos_nonneg; lia).
  pose proof (Z.div_mod a (2 ^ j) ltac:(lia)) as Hd.
  pose proof (Z.mod_pos_bound a (2 ^ j) Hp) as Hm.
  destruct (Z.eq_dec (a mod 2 ^ j) 0) as [H0|H0].
  - rewrite rne_exact by assumption. nia.
  - pose proof (rne_upper a j). nia.
Qed.

Lemma rne_ge_multiple (a j N : Z) : 0 <= j -> N * 2 ^ j <= a -> N <= rne a j.
Proof.
  intros Hj H.
  assert (Hp : 0 < 2 ^ j) by (apply Z.pow_pos_nonneg; lia).
  pose proof (rne_lower a j).
  assert (N <= a / 2 ^ j) by (apply Z.div_le_lower_bound; lia).
  lia.
Qed.

Lemma rne_mono (a b j : Z) : 0 <= j -> a <= b -> rne a j <= rne b j.
Proof.
  intros Hj Hab.
  assert (Hp : 0 < 2 ^ j) by (apply Z.pow_pos_nonneg; lia).
  assert (Hq : a / 2 ^ j <= b / 2 ^ j) by (apply Z.div_le_mono; lia).
  destruct (Z.eq_dec (a / 2 ^ j) (b / 2 ^ j)) as [E|NE].
  - assert (Hr : a mod 2 ^ j <= b mod 2 ^ j).
    { pose proof (Z.div_mod a (2 ^ j) ltac:(lia)).
      pose proof (Z.div_mod b (2 ^ j) ltac:(lia)). nia. }
    unfold rne. rewrite E.
    destruct (Z.compare_spec (2 * (a mod 2 ^ j)) (2 ^ j));
      destruct (Z.compare_spec (2 * (b mod 2 ^ j)) (2 ^ j));
      destruct (Z.even (b / 2 ^ j)); lia.
  - pose proof (rne_upper a j). pose proof (rne_lower b j). lia.
Qed.

(** The rounding depends on the quotient only, not on its representation. *)
Lemma rne_scale (a j c : Z) : 0 <= j -> 0 <= c -> rne (a * 2 ^ c) (j + c) = rne a j.
Proof.
  intros Hj Hc.
  assert (Hpj : 0 < 2 ^ j) by (apply Z.pow_pos_nonneg; lia).
  assert (Hpc : 0 < 2 ^ c) by (apply Z.pow_pos_nonneg; lia).
  unfold rne. rewrite Z.pow_add_r by assumption.
  rewrite Z.div_mul_cancel_r by lia.
  rewrite Zmult_mod_distr_r.
  replace (2 * (a mod 2 ^ j * 2 ^ c)) with (2 * (a mod 2 ^ j) * 2 ^ c) by ring.
  rewrite <- Zmult_compare_compat_r by lia.
  reflexivity.
Qed.

(** ** Binary digits and the exponent of the grid *)

Lemma digits2_pos_bounds (m : positive) :
  2 ^ (Zpos (digits2_pos m) - 1) <= Zpos m < 2 ^ Zpos (digits2_pos m).
Proof.
  induction m as [m IH|m IH|]; simpl digits2_pos.
  - rewrite Pos2Z.inj_succ.
    replace (Z.succ (Zpos (digits2_pos m)) - 1) with (Z.succ (Zpos (digits2_pos m) - 1)) by lia.
    rewrite !Z.pow_succ_r by lia. lia.
  - rewrite Pos2Z.inj_succ.
    replace (Z.succ (Zpos (digits2_pos m)) - 1) with (Z.succ (Zpos (digits2_pos m) - 1)) by lia.
    rewrite !Z.pow_succ_r by lia. lia.
  - simpl. lia.
Qed.

Lemma Zdigits2_bounds (M : Z) :
  0 < M -> 2 ^ (Zdigits2 M - 1) <= M < 2 ^ Zdigits2 M.
Proof.
  destruct M as [|p|p]; try lia. intros _. apply digits2_pos_bounds.
Qed.

Lemma Zdigits2_le (M a : Z) : 0 < M -> 0 <= a -> M < 2 ^ a -> Zdigits2 M <= a.
Proof.
  intros HM Ha Hlt.
  destruct (Zdigits2_bounds M HM) as [Hlo _].
  destruct (Z_le_gt_dec (Zdigits2 M) a) as [|Hgt]; [assumption|].
  assert (2 ^ a <= 2 ^ (Zdigits2 M - 1)) by (apply Z.pow_le_mono_r; lia).
  lia.
Qed.

Lemma Zdigits2_ge (M a : Z) : 0 < M -> 2 ^ a <= M -> a + 1 <= Zdigits2 M.
Proof.
  intros HM Hle.
  destruct (Zdigits2_bounds M HM) as [_ Hhi].
  destruct (Z_le_gt_dec (a + 1) (Zdigits2 M)) as [|Hgt]; [assumption|].
  assert (0 <= Zdigits2 M) by (destruct M; simpl; lia).
  assert (2 ^ Zdigits2 M <= 2 ^ a) by (apply Z.pow_le_mono_r; lia).
  lia.
Qed.

Lemma Zdigits2_nonneg (M : Z) : 0 <= Zdigits2 M.
Proof. destruct M; simpl; lia. Qed.

Lemma Zdigits2_shift (a c : Z) :
  0 < a -> 0 <= c -> Zdigits2 (a * 2 ^ c) = Zdigits2 a + c.
Proof.
  intros Ha Hc.
  assert (Hp : 0 < 2 ^ c) by (apply Z.pow_pos_nonneg; lia).
  destruct (Zdigits2_bounds a Ha) as [Hlo Hhi].
  assert (H1 : 1 <= Zdigits2 a).
  { pose proof (Zdigits2_ge a 0 Ha). simpl in *. lia. }
  apply Z.le_antisymm.
  - apply Zdigits2_le; try nia.
    rewrite Z.pow_add_r by lia. nia.
  - replace (Zdigits2 a + c) with ((Zdigits2 a - 1 + c) + 1) by lia.
    apply Zdigits2_ge; try nia.
    rewrite Z.pow_add_r by lia. nia.
Qed.

Lemma Zdigits2_mono (a b : Z) : 0 < a -> a <= b -> Zdigits2 a <= Zdigits2 b.
Proof.
  intros Ha Hab.
  destruct (Zdigits2_bounds b ltac:(lia)) as [_ Hhi].
  apply Zdigits2_le; try lia. apply Zdigits2_nonneg.
Qed.

Lemma rexp_ge_emin (M E : Z) : -149 <= rexp M E.
Proof. unfold rexp, fexp, emin, Float32.prec, Float32.emax. lia. Qed.

Lemma rexp_ge_digits (M E : Z) : Zdigits2 M + E - 24 <= rexp M E.
Proof. unfold rexp, fexp, emin, Float32.prec, Float32.emax. lia. Qed.

Lemma rexp_cases (M E : Z) :
  rexp M E = Zdigits2 M + E - 24 \/ rexp M E = -149.
Proof. unfold rexp, fexp, emin, Float32.prec, Float32.emax. lia. Qed.

Lemma rexp_shift (a c e : Z) :
  0 < a -> 0 <= c -> rexp (a * 2 ^ c) (e - c) = rexp a e.
Proof.
  intros Ha Hc. unfold rexp. rewrite Zdigits2_shift by assumption.
  f_equal. lia.
Qed.

Lemma rexp_mono (a b e : Z) : 0 < a -> a <= b -> rexp a e <= rexp b e.
Proof.
  intros Ha Hab. pose proof (Zdigits2_mono a b Ha Hab).
  unfold rexp, fexp, emin, Float32.prec, Float32.emax. lia.
Qed.

(** The rounded mantissa has at most 24 bits, or is [2^24]. *)
Lemma rne_rexp_bound (M E : Z) :
  0 < M -> E <= rexp M E -> 0 <= rne M (rexp M E - E) <= 2 ^ 24.
Proof.
  intros HM Hs.
  pose proof (rexp_ge_digits M E) as Hd.
  destruct (Zdigits2_bounds M HM) as [_ Hhi].
  set (s := rexp M E - E) in *.
  assert (Hp : 0 < 2 ^ s) by (apply Z.pow_pos_nonneg; lia).
  assert (Hq : M / 2 ^ s < 2 ^ 24).
  { apply Z.div_lt_upper_bound; [assumption|].
    rewrite <- Z.pow_add_r by lia.
    apply Z.lt_le_trans with (1 := Hhi). apply Z.pow_le_mono_r; lia. }
  pose proof (rne_upper M s). pose proof (rne_lower M s).
  assert (0 <= M / 2 ^ s) by (apply Z.div_pos; lia).
  lia.
Qed.

Lemma rmant_shift (a c e : Z) :
  0 < a -> 0 <= c -> e <= rexp a e -> rmant (a * 2 ^ c) (e - c) = rmant a e.
Proof.
  intros Ha Hc He. unfold rmant. rewrite rexp_shift by assumption.
  replace (rexp a e - (e - c)) with ((rexp a e - e) + c) by lia.
  apply rne_scale; lia.
Qed.

Lemma rmant_pos (a e : Z) :
  0 < a -> -149 <= e -> e <= rexp a e -> 0 < rmant a e.
Proof.
  intros Ha Hemin He. unfold rmant.
  pose proof (rne_lower a (rexp a e - e)) as Hlo.
  destruct (rexp_cases a e) as [Hc|Hc].
  - destruct (Zdigits2_bounds a Ha) as [Hd _].
    assert (Hj : 0 <= Zdigits2 a - 24) by lia.
    assert (2 ^ 23 <= a / 2 ^ (rexp a e - e)).
    { replace (rexp a e - e) with (Zdigits2 a - 24) by lia.
      apply Z.div_le_lower_bound; [apply Z.pow_pos_nonneg; lia|].
      rewrite <- Z.pow_add_r by lia.
      replace (Zdigits2 a - 24 + 23) with (Zdigits2 a - 1) by lia. exact Hd. }
    lia.
  - replace (rexp a e - e) with 0 by lia. rewrite rne_0. exact Ha.
Qed.

(** ** The rounding of [spec_float], related to [rne] *)

Lemma shr_1_nonneg (m : Z) (r s : bool) :
  0 <= m ->
  shr_1 {| shr_m := m; shr_r := r; shr_s := s |}
  = {| shr_m := m / 2; shr_r := Z.odd m; shr_s := r || s |}.
Proof.
  intros Hm. rewrite <- Z.div2_div.
  destruct m as [|[p|p|]|p]; try reflexivity; lia.
Qed.

Lemma mod_pow2_succ (D n : Z) :
  0 <= n ->
  D mod 2 ^ (n + 1) = D mod 2 ^ n + 2 ^ n * Z.b2z (Z.testbit D n).
Proof.
  intros Hn.
  assert (Hp : 0 < 2 ^ n) by (apply Z.pow_pos_nonneg; lia).
  rewrite Z.pow_add_r, Z.pow_1_r by lia.
  rewrite Z.rem_mul_r by lia.
  now rewrite Z.testbit_spec' by lia.
Qed.

Lemma shr_inv_step (D n : Z) (x : shr_record) :
  0 <= D -> 0 <= n -> shr_inv D n x -> shr_inv D (n + 1) (shr_1 x).
Proof.
  intros HD Hn. destruct x as [m r s]. unfold shr_inv.
  intros (Hm & Hr & Hs). simpl in Hm, Hr, Hs.
  assert (Hp : 0 < 2 ^ (n + 1)) by (apply Z.pow_pos_nonneg; lia).
  assert (Hm0 : 0 <= m) by (subst m; apply Z.div_pos; lia).
  rewrite shr_1_nonneg by assumption. simpl.
  repeat split.
  - subst m. rewrite Z.div_div by lia.
    rewrite (Z.pow_add_r 2 (n + 1) 1) by lia. reflexivity.
  - subst m. rewrite <- Z.bit0_odd, Z.div_pow2_bits by lia. reflexivity.
  - subst r s. rewrite mod_pow2_succ by lia.
    assert (Hq : 0 < 2 ^ n) by (apply Z.pow_pos_nonneg; lia).
    pose proof (Z.mod_pos_bound D (2 ^ n) Hq).
    destruct (Z.testbit D n); simpl Z.b2z;
      destruct (Z.eqb_spec (D mod 2 ^ n) 0);
      match goal with |- _ = negb (?a =? 0) => destruct (Z.eqb_spec a 0) end;
      simpl; try reflexivity; nia.
Qed.

Lemma shr_inv_iter (D : Z) (p : positive) :
  0 <= D ->
  forall (n : Z) (x : shr_record),
    0 <= n -> shr_inv D n x -> shr_inv D (n + Zpos p) (iter_pos shr_1 p x).
Proof.
  intros HD. induction p as [p IH|p IH|]; intros n x Hn Hx; simpl iter_pos.
  - replace (n + Zpos p~1) with (((n + 1) + Zpos p) + Zpos p) by lia.
    apply IH; [lia|]. apply IH; [lia|]. now apply shr_inv_step.
  - replace (n + Zpos p~0) with ((n + Zpos p) + Zpos p) by lia.
    apply IH; [lia|]. now apply IH.
  - now apply shr_inv_step.
Qed.

(** Shifting an exact mantissa by [p] bits and rounding is [rne]. *)
Lemma shr_round (M : Z) (p : positive) :
  0 <= M ->
  let x := iter_pos shr_1 p {| shr_m := M; shr_r := false; shr_s := false |} in
  round_nearest_even (shr_m x) (loc_of_shr_record x) = rne M (Zpos p).
Proof.
  intros HM x.
  assert (Hinv : shr_inv (2 * M) (0 + Zpos p) x).
  { apply shr_inv_iter; try lia. unfold shr_inv. cbn [shr_m shr_r shr_s].
    repeat split.
    - change (2 ^ (0 + 1)) with 2. rewrite Z.mul_comm, Z.div_mul by lia. reflexivity.
    - symmetry. apply Z.testbit_even_0.
    - change (2 ^ 0) with 1. rewrite Z.mod_1_r. reflexivity. }
  change (0 + Zpos p) with (Zpos p) in Hinv.
  destruct x as [m r s]. destruct Hinv as (Hm & Hr & Hs).
  cbn [shr_m shr_r shr_s] in Hm, Hr, Hs.
  assert (Hp : 0 < 2 ^ Zpos p) by (apply Z.pow_pos_nonneg; lia).
  assert (Hq : m = M / 2 ^ Zpos p).
  { rewrite Hm, Z.pow_add_r, Z.pow_1_r by lia.
    rewrite (Z.mul_comm (2 ^ Zpos p) 2), Z.div_mul_cancel_l by lia. reflexivity. }
  assert (Hrem : 2 * (M mod 2 ^ Zpos p)
                 = (2 * M) mod 2 ^ Zpos p + 2 ^ Zpos p * Z.b2z r).
  { rewrite Hr, <- mod_pow2_succ by lia.
    rewrite Z.pow_add_r, Z.pow_1_r by lia.
    rewrite (Z.mul_comm (2 ^ Zpos p) 2), Zmult_mod_distr_l. reflexivity. }
  pose proof (Z.mod_pos_bound (2 * M) (2 ^ Zpos p) Hp) as Hb.
  unfold rne. rewrite <- Hq. simpl shr_m.
  destruct r, s; simpl loc_of_shr_record; simpl round_nearest_even;
    simpl Z.b2z in Hrem;
    destruct (Z.eqb_spec ((2 * M) mod 2 ^ Zpos p) 0) as [E0|E0]; try discriminate Hs;
    destruct (Z.compare_spec (2 * (M mod 2 ^ Zpos p)) (2 ^ Zpos p)); try lia;
    reflexivity.
Qed.

Lemma binary_round_aux_spec (sx : bool) (M : positive) (E : Z) :
  E < rexp (Zpos M) E ->
  binary_round_aux Float32.prec Float32.emax sx (Zpos M) E loc_Exact
  = round_finish sx (rne (Zpos M) (rexp (Zpos M) E - E)) (rexp (Zpos M) E).
Proof.
  intros Hs.
  pose proof (rne_rexp_bound (Zpos M) E ltac:(lia) ltac:(lia)) as Hb.
  pose proof (rexp_ge_emin (Zpos M) E) as Hemin.
  unfold binary_round_aux, shr_fexp at 1.
  change (fexp Float32.prec Float32.emax (Zdigits2 (Zpos M) + E)) with (rexp (Zpos M) E).
  cbn [shr_record_of_loc].
  set (e' := rexp (Zpos M) E) in *.
  destruct (e' - E) as [|p|p] eqn:Hp; try lia.
  unfold shr.
  pose proof (shr_round (Zpos M) p ltac:(lia)) as Hr. cbv zeta in Hr.
  rewrite Hr. clear Hr.
  replace (E + Zpos p) with e' by lia.
  set (m' := rne (Zpos M) (Zpos p)) in *.
  unfold round_finish, shr_fexp.
  destruct (Z.eqb_spec m' (2 ^ 24)) as [E24|N24].
  - rewrite E24. cbn [shr_record_of_loc].
    change (Zdigits2 (2 ^ 24)) with 25.
    assert (Hf : fexp Float32.prec Float32.emax (25 + e') - e' = 1).
    { unfold fexp, emin, Float32.prec, Float32.emax. lia. }
    rewrite Hf. cbn [shr iter_pos]. 
    change (shr_1 {| shr_m := 2 ^ 24; shr_r := false; shr_s := false |})
      with {| shr_m := 8388608; shr_r := false; shr_s := false |}.
    cbn [shr_m]. reflexivity.
  - assert (Hf : fexp Float32.prec Float32.emax (Zdigits2 m' + e') - e' <= 0).
    { assert (Zdigits2 m' <= 24).
      { destruct (Z.eq_dec m' 0) as [->|]; [simpl; lia|].
        apply Zdigits2_le; lia. }
      unfold fexp, emin, Float32.prec, Float32.emax. lia. }
    cbn [shr_record_of_loc].
    destruct (fexp Float32.prec Float32.emax (Zdigits2 m' + e') - e') as [|q|q] eqn:Hq;
      try lia; cbn [shr shr_m]; destruct m'; try reflexivity; lia.
Qed.

(** A valid finite binary32 has a canonical exponent. *)
Lemma valid_finite (s : bool) (m : positive) (e : Z) :
  Float32.valid (S754_finite s m e) = true ->
  e = rexp (Zpos m) e /\ e <= 104.
Proof.
  unfold Float32.valid, valid_binary, bounded, canonical_mantissa, rexp.
  intros H. apply andb_prop in H. destruct H as [H1 H2].
  apply Z.eqb_eq in H1. apply Z.leb_le in H2.
  simpl Zdigits2. unfold Float32.emax, Float32.prec in *. lia.
Qed.

(** The product of a valid positive float and a constant [k], held in a
    float with mantissa [mk = k * 2^(-ek)]. *)
Lemma mul_const_spec (s : bool) (m : positive) (e : Z) (mk : positive) (ek k : Z) :
  Float32.valid (S754_finite s m e) = true ->
  ek < 0 -> 0 < k -> Zpos mk = k * 2 ^ (- ek) ->
  e <= rexp (Zpos m * k) e /\
  Float32.mul (S754_finite s m e) (S754_finite false mk ek)
  = round_finish s (rmant (Zpos m * k) e) (rexp (Zpos m * k) e).
Proof.
  intros Hv Hek Hk Hmk.
  destruct (valid_finite _ _ _ Hv) as [He _].
  assert (Hge : e <= rexp (Zpos m * k) e).
  { rewrite He at 1. apply rexp_mono; nia. }
  split; [assumption|].
  unfold Float32.mul, SFmul.
  replace (xorb s false) with s by (destruct s; reflexivity).
  assert (HM : Zpos (m * mk) = (Zpos m * k) * 2 ^ (- ek)).
  { rewrite Pos2Z.inj_mul, Hmk. ring. }
  assert (Hr : rexp (Zpos (m * mk)) (e + ek) = rexp (Zpos m * k) e).
  { rewrite HM. replace (e + ek) with (e - - ek) by lia.
    apply rexp_shift; nia. }
  rewrite binary_round_aux_spec by (rewrite Hr; lia).
  rewrite Hr. f_equal.
  rewrite <- Hr. change (rne ?a (rexp ?a ?b - ?b)) with (rmant a b).
  rewrite HM. replace (e + ek) with (e - - ek) by lia.
  apply rmant_shift; nia.
Qed.

(** A rounded positive value that compares below a float constant
    [c = mc * 2^ec <= 4095] converts to an integer below [c], without
    saturation or wrap-around. *)
Lemma cast_round_finish (m' e' : Z) (mc : positive) (ec c : Z) :
  0 < m' <= 2 ^ 24 ->
  ec <= -12 -> c <= 4095 -> 2 ^ 23 <= Zpos mc -> Zpos mc = c * 2 ^ (- ec) ->
  Float32.ltb (round_finish false m' e') (S754_finite false mc ec) = true ->
  e' <= -12 /\
  to_uint16 (Float32.to_uint32 (round_finish false m' e')) = m' / 2 ^ (- e') /\
  m' / 2 ^ (- e') < c.
Proof.
  intros Hm Hec Hc4095 Hmc Hc Hlt.
  assert (Hcmp : e' <= ec /\ m' < Zpos mc * 2 ^ (ec - e') /\
                 Float32.to_uint32 (round_finish false m' e') = Z.min (m' / 2 ^ (- e')) 0xFFFFFFFF).
  { unfold round_finish in *.
    destruct (Z.eqb_spec m' (2 ^ 24)) as [E24|N24].
    - destruct (e' + 1 <=? 104); [|discriminate Hlt].
      unfold Float32.ltb, SFltb, SFcompare in Hlt.
      assert (Hsh : Float32.trunc_pos 8388608 (e' + 1) = m' / 2 ^ (- e') -> e' + 1 <= ec ->
              Float32.to_uint32 (S754_finite false 8388608 (e' + 1)) = Z.min (m' / 2 ^ (- e')) 0xFFFFFFFF).
      { intros Heq _. unfold Float32.to_uint32. now rewrite Heq. }
      assert (Htr : e' + 1 <= ec -> Float32.trunc_pos 8388608 (e' + 1) = m' / 2 ^ (- e')).
      { intros Hle. unfold Float32.trunc_pos.
        rewrite Z.shiftl_div_pow2 by lia. rewrite E24.
        replace (- e') with (1 + - (e' + 1)) by lia.
        rewrite Z.pow_add_r by lia.
        change (2 ^ 24) with (2 ^ 1 * 8388608).
        rewrite Z.div_mul_cancel_l; lia. }
      destruct (Z.compare_spec (e' + 1) ec) as [He|He|He]; try discriminate Hlt.
      + assert (Hpc : (8388608 < mc)%positive).
        { destruct (Pos.compare_cont Eq 8388608 mc) eqn:Hcc; try discriminate Hlt.
          now apply Pos.compare_lt_iff. }
        repeat split; [lia| |apply Hsh; [apply Htr|]; lia].
        replace (ec - e') with 1 by lia. rewrite E24. change (2 ^ 1) with 2.
        change (2 ^ 24) with (8388608 * 2). lia.
      + repeat split; [lia| |apply Hsh; [apply Htr|]; lia].
        rewrite E24.
        assert (2 ^ 2 <= 2 ^ (ec - e')) by (apply Z.pow_le_mono_r; lia).
        change (2 ^ 24) with (2 ^ 23 * 2). change (2 ^ 2) with 4 in *. nia.
    - destruct m' as [|p|p]; try lia.
      destruct (e' <=? 104); [|discriminate Hlt].
      unfold Float32.ltb, SFltb, SFcompare in Hlt.
      assert (Hsh : e' <= ec ->
              Float32.to_uint32 (S754_finite false p e') = Z.min (Zpos p / 2 ^ (- e')) 0xFFFFFFFF).
      { intros Hle. unfold Float32.to_uint32, Float32.trunc_pos.
        rewrite Z.shiftl_div_pow2 by lia. reflexivity. }
      destruct (Z.compare_spec e' ec) as [He|He|He]; try discriminate Hlt.
      + assert (Hpc : (p < mc)%positive).
        { destruct (Pos.compare_cont Eq p mc) eqn:Hcc; try discriminate Hlt.
          now apply Pos.compare_lt_iff. }
        repeat split; [lia| |apply Hsh; lia].
        replace (ec - e') with 0 by lia. change (2 ^ 0) with 1. lia.
      + repeat split; [lia| |apply Hsh; lia].
        assert (2 ^ 1 <= 2 ^ (ec - e')) by (apply Z.pow_le_mono_r; lia).
        change (2 ^ 1) with 2 in *. nia. }
  destruct Hcmp as (He & Hval & Hcast).
  assert (Hp : 0 < 2 ^ (- e')) by (apply Z.pow_pos_nonneg; lia).
  assert (Hv : m' / 2 ^ (- e') < c).
  { apply Z.div_lt_upper_bound; [assumption|].
    replace (- e') with (- ec + (ec - e')) by lia.
    rewrite Z.pow_add_r by lia. nia. }
  assert (0 <= m' / 2 ^ (- e')) by (apply Z.div_pos; lia).
  repeat split; [lia| |assumption].
  rewrite Hcast. unfold to_uint16.
  rewrite Z.min_l by lia. apply Z.mod_small. lia.
Qed.

Lemma rfloor_shift (a c e : Z) :
  0 < a -> 0 <= c -> e <= rexp a e -> rfloor (a * 2 ^ c) (e - c) = rfloor a e.
Proof.
  intros Ha Hc He. unfold rfloor.
  rewrite rmant_shift, rexp_shift by assumption. reflexivity.
Qed.

(** The integer part of the rounded value is not below that of the exact
    value [a / 2^(-e)] ... *)
Lemma rfloor_lower (a e : Z) :
  0 < a -> e <= rexp a e -> rexp a e <= 0 -> a / 2 ^ (- e) <= rfloor a e.
Proof.
  intros Ha He He0. unfold rfloor, rmant.
  set (e' := rexp a e) in *.
  assert (Hj : 0 < 2 ^ (e' - e)) by (apply Z.pow_pos_nonneg; lia).
  assert (Hn : 0 < 2 ^ (- e')) by (apply Z.pow_pos_nonneg; lia).
  replace (- e) with ((e' - e) + - e') by lia.
  rewrite Z.pow_add_r, <- Z.div_div by lia.
  apply Z.div_le_mono; [lia|]. apply rne_lower.
Qed.

(** ... and less than one above the exact value. *)
Lemma rfloor_upper (a e : Z) :
  0 < a -> e <= rexp a e -> rexp a e <= 0 ->
  rfloor a e * 2 ^ (- e) < a + 2 ^ (- e).
Proof.
  intros Ha He He0. unfold rfloor, rmant.
  set (e' := rexp a e) in *.
  set (j := e' - e).
  assert (Hj : 0 < 2 ^ j) by (apply Z.pow_pos_nonneg; lia).
  assert (Hn : 0 < 2 ^ (- e')) by (apply Z.pow_pos_nonneg; lia).
  assert (Hpow : 2 ^ (- e) = 2 ^ (- e') * 2 ^ j).
  { rewrite <- Z.pow_add_r by lia. f_equal. lia. }
  set (N := (a + 2 ^ j - 1) / 2 ^ j).
  assert (HN : a <= N * 2 ^ j /\ N * 2 ^ j <= a + 2 ^ j - 1).
  { pose proof (Z.div_mod (a + 2 ^ j - 1) (2 ^ j) ltac:(lia)).
    pose proof (Z.mod_pos_bound (a + 2 ^ j - 1) (2 ^ j) Hj).
    unfold N. lia. }
  assert (Hm : rne a j <= N) by (apply rne_le_multiple; lia).
  assert (HR : rne a j / 2 ^ (- e') * 2 ^ (- e') <= rne a j).
  { pose proof (Z.mul_div_le (rne a j) (2 ^ (- e')) Hn). lia. }
  rewrite Hpow.
  assert (1 <= 2 ^ (- e')) by lia.
  nia.
Qed.

Lemma rfloor_mono (a b e : Z) :
  0 < a -> a <= b -> e <= rexp a e -> rexp b e <= 0 ->
  rfloor a e <= rfloor b e.
Proof.
  intros Ha Hab He Hb0.
  pose proof (rexp_mono a b e Ha Hab) as Hmono.
  unfold rfloor.
  destruct (Z.eq_dec (rexp a e) (rexp b e)) as [Heq|Hne].
  - unfold rmant. rewrite Heq.
    apply Z.div_le_mono; [apply Z.pow_pos_nonneg; lia|].
    apply rne_mono; lia.
  - assert (Hma : rmant a e <= 2 ^ 24) by (apply rne_rexp_bound; lia).
    assert (Hmb : 2 ^ 23 <= rmant b e).
    { unfold rmant. apply rne_ge_multiple; [lia|].
      pose proof (rexp_ge_emin a e).
      destruct (rexp_cases b e) as [Hc|Hc]; [|lia].
      destruct (Zdigits2_bounds b ltac:(lia)) as [Hd _].
      rewrite <- Z.pow_add_r by lia.
      replace (23 + (rexp b e - e)) with (Zdigits2 b - 1) by lia. exact Hd. }
    set (na := - rexp a e) in *. set (nb := - rexp b e) in *.
    assert (Hpa : 0 < 2 ^ na) by (apply Z.pow_pos_nonneg; lia).
    assert (Hpb : 0 < 2 ^ nb) by (apply Z.pow_pos_nonneg; lia).
    assert (Hsplit : 2 ^ na = 2 ^ nb * 2 ^ (na - nb)).
    { rewrite <- Z.pow_add_r by lia. f_equal. lia. }
    assert (Hd : 2 ^ 1 <= 2 ^ (na - nb)) by (apply Z.pow_le_mono_r; lia).
    change (2 ^ 1) with 2 in Hd.
    apply Z.le_trans with (2 ^ 24 / 2 ^ na).
    + apply Z.div_le_mono; lia.
    + apply Z.le_trans with (2 ^ 23 / 2 ^ nb).
      * rewrite Hsplit, Z.mul_comm, <- Z.div_div by lia.
        apply Z.div_le_mono; [lia|].
        apply Z.div_le_upper_bound; [lia|].
        change (2 ^ 24) with (2 * 2 ^ 23). nia.
      * apply Z.div_le_mono; lia.
Qed.

(** Monotonicity for values given at different exponents. *)
Lemma rfloor_mono_gen (a1 e1 a2 e2 : Z) :
  0 < a1 -> 0 < a2 -> e1 <= e2 -> a1 <= a2 * 2 ^ (e2 - e1) ->
  e1 <= rexp a1 e1 -> e2 <= rexp a2 e2 -> rexp a2 e2 <= 0 ->
  rfloor a1 e1 <= rfloor a2 e2.
Proof.
  intros H1 H2 He Ha Hr1 Hr2 H0.
  rewrite <- (rfloor_shift a2 (e2 - e1) e2) by lia.
  replace (e2 - (e2 - e1)) with e1 by lia.
  apply rfloor_mono; try lia.
  rewrite <- (rexp_shift a2 (e2 - e1) e2) in H0 by lia.
  replace (e2 - (e2 - e1)) with e1 in H0 by lia. exact H0.
Qed.

(** ** The counts of [Configure] *)

Lemma Prescaler_in (t : Float32.float) : In (Prescaler t) prescalers.
Proof.
  unfold Prescaler, select_prescaler, prescalers.
  repeat match goal with
         | |- context [if ?c then _ else _] => destruct c
         end; simpl; tauto.
Qed.

Ltac eval_const :=
  match goal with
  | |- context [Float32.of_int ?n] =>
      let f := eval vm_compute in (Float32.of_int n) in
      change (Float32.of_int n) with f
  | H : context [Float32.of_int ?n] |- _ =>
      let f := eval vm_compute in (Float32.of_int n) in
      change (Float32.of_int n) with f in H
  end.

Lemma counts_generic (m : positive) (e k c : Z) (mk mc : positive) (ek ec : Z) :
  Float32.valid (S754_finite false m e) = true ->
  ek < 0 -> 0 < k -> Zpos mk = k * 2 ^ (- ek) ->
  ec <= -12 -> c <= 4095 -> 2 ^ 23 <= Zpos mc -> Zpos mc = c * 2 ^ (- ec) ->
  Float32.ltb (Float32.mul (S754_finite false m e) (S754_finite false mk ek))
              (S754_finite false mc ec) = true ->
  e <= rexp (Zpos m * k) e /\
  rexp (Zpos m * k) e <= -12 /\
  to_uint16 (Float32.to_uint32
               (Float32.mul (S754_finite false m e) (S754_finite false mk ek)))
  = rfloor (Zpos m * k) e /\
  rfloor (Zpos m * k) e < c.
Proof.
  intros Hv Hek Hk Hmk Hec Hc Hmc23 Hmc Hb.
  assert (Hemin : -149 <= e).
  { destruct (valid_finite _ _ _ Hv) as [He _]. rewrite He. apply rexp_ge_emin. }
  destruct (mul_const_spec false m e mk ek k Hv Hek Hk Hmk) as [Hge Hmul].
  rewrite Hmul in Hb |- *.
  assert (Hpos : 0 < rmant (Zpos m * k) e <= 2 ^ 24).
  { split; [apply rmant_pos; nia|apply rne_rexp_bound; nia]. }
  destruct (cast_round_finish _ _ mc ec c Hpos Hec Hc Hmc23 Hmc Hb)
    as (H12 & Hcast & Hlt).
  unfold rfloor. auto.
Qed.

(** For a valid finite timeout [m * 2^e] whose count for [p] is below the
    bound of [p], the count converts to [rfloor (m * k) e], where [k] is the
    integer quotient [LsiFreq / p], and this is below the bound. *)
Lemma counts_spec (m : positive) (e p : Z) :
  let t := S754_finite false m e in
  let k := Z.quot LsiFreq p in
  Float32.valid t = true -> In p prescalers -> bound_holds t p = true ->
  e <= rexp (Zpos m * k) e /\
  rexp (Zpos m * k) e <= -12 /\
  to_uint16 (Float32.to_uint32 (counts t p)) = rfloor (Zpos m * k) e /\
  rfloor (Zpos m * k) e < bound p.
Proof.
  intros t k Hv Hin Hb. subst t k.
  unfold bound_holds, counts, prescalers in *.
  simpl in Hin.
  repeat (destruct Hin as [<-|Hin]); try contradiction;
    repeat eval_const;
    match type of Hb with
    | Float32.ltb (Float32.mul _ (S754_finite false ?mk ?ek))
                  (S754_finite false ?mc ?ec) = true =>
        match goal with
        | |- context [bound ?p] =>
            apply (counts_generic m e (Z.quot LsiFreq p) (bound p) mk mc ek ec);
            first [exact Hv | exact Hb | reflexivity | (vm_compute; discriminate)]
        end
    end.
Qed.

Lemma prescaler_quot (p : Z) :
  In p prescalers ->
  0 < p /\ 0 < Z.quot LsiFreq p /\ 0 <= LsiFreq mod p /\
  p * Z.quot LsiFreq p + LsiFreq mod p = LsiFreq.
Proof.
  unfold prescalers. simpl.
  intros H. repeat (destruct H as [<-|H]); try contradiction;
    vm_compute; intuition discriminate.
Qed.

(** The programmed product against the requested timeout [m / 2^(-e)], in
    ticks of [LsiFreq], cleared of denominators. *)
Lemma reload_bounds_Z (m : positive) (e p : Z) :
  let t := S754_finite false m e in
  let r := to_uint16 (Float32.to_uint32 (counts t p)) in
  Float32.valid t = true -> In p prescalers -> bound_holds t p = true ->
  e <= -12 /\
  0 <= r < bound p /\
  p * r * 2 ^ (- e) <= LsiFreq * Zpos m + p * 2 ^ (- e) /\
  LsiFreq * Zpos m < p * r * 2 ^ (- e) + p * 2 ^ (- e) + Zpos m * (LsiFreq mod p).
Proof.
  intros t r Hv Hin Hb. subst t r.
  destruct (counts_spec m e p Hv Hin Hb) as (Hge & H12 & Hcast & Hlt).
  destruct (prescaler_quot p Hin) as (Hp & Hk & Hr & Hdiv).
  rewrite Hcast. clear Hcast.
  set (k := Z.quot LsiFreq p) in *.
  set (a := Zpos m * k) in *.
  assert (Ha : 0 < a) by (unfold a; nia).
  pose proof (rfloor_lower a e Ha Hge ltac:(lia)) as Hlo.
  pose proof (rfloor_upper a e Ha Hge ltac:(lia)) as Hup.
  set (R := rfloor a e) in *.
  assert (Hpow : 0 < 2 ^ (- e)) by (apply Z.pow_pos_nonneg; lia).
  assert (Hlo' : a < (R + 1) * 2 ^ (- e)).
  { pose proof (Z.div_mod a (2 ^ (- e)) ltac:(lia)).
    pose proof (Z.mod_pos_bound a (2 ^ (- e)) Hpow). nia. }
  assert (HR0 : 0 <= R).
  { assert (0 <= a / 2 ^ (- e)) by (apply Z.div_pos; lia). lia. }
  repeat split; try lia.
  - assert (p * (R * 2 ^ (- e)) <= p * (a + 2 ^ (- e))) by nia.
    assert (p * a <= LsiFreq * Zpos m) by (unfold a; nia).
    nia.
  - assert (p * a < p * ((R + 1) * 2 ^ (- e))) by nia.
    assert (LsiFreq * Zpos m = p * a + Zpos m * (LsiFreq mod p)) by (unfold a; nia).
    nia.
Qed.

(** ** Selection of the prescaler *)

Lemma select_prescaler_eq (t : Float32.float) :
  select_prescaler t =
  if bound_holds t 4 then (IWDG_PRESCALER_4, 4)
  else if bound_holds t 8 then (IWDG_PRESCALER_8, 8)
  else if bound_holds t 16 then (IWDG_PRESCALER_16, 16)
  else if bound_holds t 32 then (IWDG_PRESCALER_32, 32)
  else if bound_holds t 64 then (IWDG_PRESCALER_64, 64)
  else if bound_holds t 128 then (IWDG_PRESCALER_128, 128)
  else (IWDG_PRESCALER_256, 256).
Proof. reflexivity. Qed.

Lemma Configure_eq (w : Watchdog) (t : Float32.float) (b : board) :
  Configure w t b =
  (w, {| RCC_FLAG_IWDGRST := RCC_FLAG_IWDGRST b;
         IWDG := {| KR := 0xAAAA; PR := PrescalerCode t; RLR := ReloadValue t |};
         stores := stores b ++ Configure_stores t;
         console := console b ++ [{| log_prescaler := Prescaler t;
                                     log_reload := ReloadValue t;
                                     log_timeout := Calculated_timeout t |}] |}).
Proof.
  unfold Configure, Service, store, printf, Configure_stores.
  cbn [IWDG stores console RCC_FLAG_IWDGRST KR PR RLR].
  repeat rewrite <- app_assoc. reflexivity.
Qed.



(** C6: with [LsiFreq] = 45000, [Configure(1.0)] finds the count 11250 of
    prescaler 4 not below 0x7FF = 2047 and the count 5625 of prescaler 8 not
    below 0xFF0 = 4080, accepts prescaler 16, and programs the selector of
    16 with the reload value 2812. *)
Example Configure_one :
  LsiFreq = 45000 /\
  counts Float32.one 4 = Float32.of_int 11250 /\
  Float32.ltb (Float32.of_int 2047) (counts Float32.one 4) = true /\
  bound_holds Float32.one 4 = false /\
  counts Float32.one 8 = Float32.of_int 5625 /\
  Float32.ltb (Float32.of_int 4080) (counts Float32.one 8) = true /\
  bound_holds Float32.one 8 = false /\
  bound_holds Float32.one 16 = true /\
  Prescaler Float32.one = 16 /\
  ReloadValue Float32.one = 2812 /\
  IWDG (snd (Configure {| wdreset := false |} Float32.one (board0 false)))
  = {| KR := 0xAAAA; PR := IWDG_PRESCALER_16; RLR := 2812 |}.
Proof. repeat split; vm_compute; reflexivity. Qed.

(** C8: calling [Configure] twice with the same timeout programs the same
    prescaler and the same reload value both times: they are a function of
    the argument alone, whatever the object and the board are. *)
Theorem Configure_twice_same (t : Float32.float) (w : Watchdog) (b : board) :
  let st1 := Configure w t b in
  let st2 := Configure (fst st1) t (snd st1) in
  PR (IWDG (snd st1)) = PrescalerCode t /\
  RLR (IWDG (snd st1)) = ReloadValue t /\
  PR (IWDG (snd st2)) = PR (IWDG (snd st1)) /\
  RLR (IWDG (snd st2)) = RLR (IWDG (snd st1)) /\
  stores (snd st1) = stores b ++ Configure_stores t /\
  stores (snd st2) = stores (snd st1) ++ Configure_stores t /\
  (forall (w' : Watchdog) (b' : board),
      IWDG (snd (Configure w' t b')) = IWDG (snd st1)).
Proof.
  cbv zeta. rewrite !Configure_eq.
  cbn [fst snd IWDG stores PR RLR]. repeat split.
Qed.

Lemma run_wdreset (cs : list call) (st : Watchdog * board) :
  fst (run cs st) = fst st.
Proof.
  unfold run. revert st.
  induction cs as [|c cs IH]; intros st; cbn [fold_left]; [reflexivity|].
  rewrite IH. destruct c; reflexivity.
Qed.

(** C10: no sequence of [Configure] and [Service] calls changes the member
    captured by the constructor, so [WatchdogCausedReset] keeps returning
    the same value; and two consecutive calls of [Service] store the same
    pattern 0xAAAA to the key register twice and leave the prescaler and
    reload registers as they were. *)
Theorem Service_Configure_frame (cs : list call) (w : Watchdog) (b : board) :
  WatchdogCausedReset (fst (run cs (w, b))) = WatchdogCausedReset w /\
  (let st1 := Service w b in
   let st2 := Service (fst st1) (snd st1) in
   fst st2 = w /\
   stores (snd st1) = stores b ++ [Write_KR 0xAAAA] /\
   stores (snd st2) = stores (snd st1) ++ [Write_KR 0xAAAA] /\
   PR (IWDG (snd st2)) = PR (IWDG b) /\
   RLR (IWDG (snd st2)) = RLR (IWDG b)).
Proof.
  split.
  - now rewrite run_wdreset.
  - cbv zeta. unfold Service, store. cbn. repeat split.
Qed.

(** C2, at the timeout 100.0: no prescaler up to 128 is admissible,
    [Configure] selects 256 and stores the reload value 17500 to the
    reload register, above 0x0FFF; nothing clamps it. *)
Theorem Configure_hundred_reload (w : Watchdog) (b : board) :
  Float32.valid Float32.hundred = true /\
  positive_timeout Float32.hundred = true /\
  Prescaler Float32.hundred = 256 /\
  ReloadValue Float32.hundred = 17500 /\
  RLR (IWDG (snd (Configure w Float32.hundred b))) = 17500 /\
  In (Write_RLR 17500) (stores (snd (Configure w Float32.hundred b))) /\
  0x0FFF < 17500.
Proof.
  rewrite Configure_eq. cbn [snd IWDG RLR stores].
  repeat split; try reflexivity.
  apply in_or_app. right. unfold Configure_stores.
  change (ReloadValue Float32.hundred) with 17500. simpl. tauto.
Qed.

(** C3, on a board whose reset flag [RCC_FLAG_IWDGRST] is set: the
    constructor does not read the flag and [WatchdogCausedReset] returns
    [false].  The constructor of the LPC branch does capture the flag of
    its peripheral (bit 2 of [WDMOD]). *)
Theorem WatchdogCausedReset_ignores_flag (b : board) :
  WatchdogCausedReset (fst (Watchdog_new b)) = false /\
  RCC_FLAG_IWDGRST (board0 true) = true /\
  WatchdogCausedReset (fst (Watchdog_new (board0 true))) = false /\
  WatchdogCausedReset (Watchdog_new_LPC 0x4) = true.
Proof. repeat split. Qed.

(** ** Non-positive timeouts *)

Lemma nonpositive_counts (t : Float32.float) :
  Float32.valid t = true -> Float32.leb t Float32.zero = true ->
  bound_holds t 4 = true /\ Float32.to_uint32 (counts t 4) = 0.
Proof.
  intros Hv Hle. unfold bound_holds, counts.
  repeat eval_const.
  destruct t as [s|s| |s m e].
  - destruct s; split; reflexivity.
  - destruct s; [split; reflexivity|discriminate Hle].
  - discriminate Hle.
  - destruct s; [|discriminate Hle].
    destruct (mul_const_spec true m e 11520000 (-10) 11250 Hv
                ltac:(lia) ltac:(lia) ltac:(reflexivity)) as [Hge Hmul].
    rewrite Hmul.
    assert (Hemin : -149 <= e).
    { destruct (valid_finite _ _ _ Hv) as [He _]. rewrite He. apply rexp_ge_emin. }
    assert (Hpos : 0 < rmant (Zpos m * 11250) e) by (apply rmant_pos; lia).
    unfold round_finish.
    destruct (rmant (Zpos m * 11250) e =? 2 ^ 24).
    + destruct (rexp (Zpos m * 11250) e + 1 <=? 104); split; reflexivity.
    + destruct (rmant (Zpos m * 11250) e) as [|q|q]; try lia.
      destruct (rexp (Zpos m * 11250) e <=? 104); split; reflexivity.
Qed.

(** C9, as the code has it: [Configure] has no error result and validates
    nothing.  For every timeout that is not positive (zero, negative or
    minus infinity), -1.0 included, the first comparison succeeds,
    prescaler 4 is selected and the six stores are made; where the
    conversion of the count to [uint32_t] is defined, the reload value
    is 0. *)
Theorem Configure_nonpositive_not_rejected (t : Float32.float) :
  Float32.valid t = true -> Float32.leb t Float32.zero = true ->
  Prescaler t = 4 /\
  PrescalerCode t = IWDG_PRESCALER_4 /\
  (Float32.to_uint32_defined (counts t 4) = true -> ReloadValue t = 0) /\
  (forall (w : Watchdog) (b : board),
      fst (Configure w t b) = w /\
      stores (snd (Configure w t b))
      = stores b ++ [Write_KR 0x5555; Write_PR IWDG_PRESCALER_4;
                     Write_RLR (ReloadValue t); Write_KR 0xAAAA;
                     Write_KR 0xCCCC; Write_KR 0xAAAA]).
Proof.
  intros Hv Hle.
  destruct (nonpositive_counts t Hv Hle) as [Hb Hc].
  assert (Hsel : select_prescaler t = (IWDG_PRESCALER_4, 4))
    by (rewrite select_prescaler_eq, Hb; reflexivity).
  assert (HP : Prescaler t = 4) by (unfold Prescaler; now rewrite Hsel).
  assert (HC : PrescalerCode t = IWDG_PRESCALER_4)
    by (unfold PrescalerCode; now rewrite Hsel).
  repeat split; try assumption.
  - intros _. unfold ReloadValue. rewrite HP, Hc. reflexivity.
  - rewrite Configure_eq. unfold Configure_stores.
    cbn [snd stores]. now rewrite HC.
Qed.

Lemma Configure_nonpositive_not_rejected_witness :
  Prescaler Float32.minus_one = 4 /\
  PrescalerCode Float32.minus_one = IWDG_PRESCALER_4 /\
  (Float32.to_uint32_defined (counts Float32.minus_one 4) = true ->
   ReloadValue Float32.minus_one = 0) /\
  (forall (w : Watchdog) (b : board),
      fst (Configure w Float32.minus_one b) = w /\
      stores (snd (Configure w Float32.minus_one b))
      = stores b ++ [Write_KR 0x5555; Write_PR IWDG_PRESCALER_4;
                     Write_RLR (ReloadValue Float32.minus_one); Write_KR 0xAAAA;
                     Write_KR 0xCCCC; Write_KR 0xAAAA]).
Proof.
  apply (Configure_nonpositive_not_rejected Float32.minus_one); reflexivity.
Defined.

(** C9 as stated fails: 0.0 and -1.0 are not positive, and [Configure]
    makes its stores to the peripheral for both.  For 0.0 the count is 0 and
    its conversion to [uint32_t] is defined. *)
Lemma Configure_minus_one_touches_registers :
  Float32.leb Float32.zero Float32.zero = true /\
  Float32.to_uint32_defined (counts Float32.zero 4) = true /\
  ~ touches_no_register Float32.zero /\
  Float32.leb Float32.minus_one Float32.zero = true /\
  ~ touches_no_register Float32.minus_one.
Proof.
  repeat split; try reflexivity;
    intros H; specialize (H {| wdreset := false |} (board0 false));
    vm_compute in H; discriminate H.
Qed.

(** ** Accuracy and monotonicity of the programmed timeout *)

Lemma positive_realizable_finite (t : Float32.float) :
  positive_timeout t = true -> realizable t = true ->
  exists m e, t = S754_finite false m e.
Proof.
  intros Hp Hr. destruct t as [s|s| |s m e]; try discriminate Hp.
  - destruct s; [discriminate Hp|discriminate Hr].
  - destruct s; [discriminate Hp|]. now exists m, e.
Qed.

Lemma ReloadValue_eq (t : Float32.float) :
  ReloadValue t = to_uint16 (Float32.to_uint32 (counts t (Prescaler t))).
Proof. reflexivity. Qed.

(** C5, as the code has it.  For every valid positive timeout [t] whose
    count is below the bound of the selected prescaler [p], the achieved
    timeout [(p * reload) / LsiFreq] is at most [t] plus one tick
    [p / LsiFreq]; and it is below [t] by less than one tick plus
    [t * (LsiFreq mod p) / LsiFreq], the part of the clock that the integer
    quotient [LsiFreq / p] drops.  The reload value is below the bound. *)
Theorem achieved_timeout_bounds (t : Float32.float) :
  Float32.valid t = true -> positive_timeout t = true -> realizable t = true ->
  (achieved t <= Float32.to_Q t + tick t)%Q /\
  (Float32.to_Q t - achieved t
   < tick t + Float32.to_Q t * (inject_Z (LsiFreq mod Prescaler t) / inject_Z LsiFreq))%Q /\
  0 <= ReloadValue t < bound (Prescaler t).
Proof.
  intros Hv Hp Hr.
  destruct (positive_realizable_finite t Hp Hr) as (m & e & ->).
  pose proof (Prescaler_in (S754_finite false m e)) as Hin.
  unfold realizable in Hr.
  destruct (reload_bounds_Z m e _ Hv Hin Hr) as (He & Hrange & Hup & Hlo).
  destruct (prescaler_quot _ Hin) as (Hp0 & _ & Hmod & _).
  unfold achieved, tick. rewrite ReloadValue_eq.
  set (p := Prescaler (S754_finite false m e)) in *.
  set (r := to_uint16 (Float32.to_uint32 (counts (S754_finite false m e) p))) in *.
  assert (Hpow : 0 < 2 ^ (- e)) by (apply Z.pow_pos_nonneg; lia).
  unfold Float32.to_Q.
  destruct (Z.leb_spec 0 e) as [He0|_]; [lia|].
  change LsiFreq with 45000 in *.
  set (d := 45000 mod p) in *.
  assert (HM : 0 < Zpos m) by lia.
  set (M := Zpos m) in *.
  assert (Hden : Zpos (Z.to_pos (2 ^ (- e))) = 2 ^ (- e)) by (apply Z2Pos.id; lia).
  set (D := 2 ^ (- e)) in *.
  clearbody M D d r p.
  repeat split; try lia.
  - unfold Qle, Qdiv, Qplus, Qmult, Qinv, inject_Z. cbn [Qnum Qden].
    rewrite ?Pos2Z.inj_mul, Hden. nia.
  - unfold Qlt, Qminus, Qopp, Qdiv, Qplus, Qmult, Qinv, inject_Z. cbn [Qnum Qden].
    rewrite ?Pos2Z.inj_mul, Hden. nia.
Qed.

Lemma achieved_timeout_bounds_witness :
  (achieved Float32.one <= Float32.to_Q Float32.one + tick Float32.one)%Q /\
  (Float32.to_Q Float32.one - achieved Float32.one
   < tick Float32.one
     + Float32.to_Q Float32.one
       * (inject_Z (LsiFreq mod Prescaler Float32.one) / inject_Z LsiFreq))%Q /\
  0 <= ReloadValue Float32.one < bound (Prescaler Float32.one).
Proof.
  apply (achieved_timeout_bounds Float32.one); reflexivity.
Defined.

(** C5 as stated fails at the timeout 11.0: prescaler 128 is selected by
    its own test, the reload value is 3861 = 11 * 351, and the achieved
    timeout 128 * 3861 / 45000 is more than one tick 128 / 45000 below 11. *)
Lemma achieved_timeout_eleven :
  Float32.valid Float32.eleven = true /\
  positive_timeout Float32.eleven = true /\
  realizable Float32.eleven = true /\
  Prescaler Float32.eleven = 128 /\
  ReloadValue Float32.eleven = 3861 /\
  ~ within_one_tick Float32.eleven.
Proof.
  repeat split; try reflexivity.
  intros [_ H]. vm_compute in H. apply H. reflexivity.
Qed.

Lemma valid_mantissa (m : positive) (e : Z) :
  Float32.valid (S754_finite false m e) = true ->
  -149 <= e /\ Zpos m < 2 ^ 24 /\ (-149 < e -> 2 ^ 23 <= Zpos m).
Proof.
  intros Hv. destruct (valid_finite _ _ _ Hv) as [He _].
  pose proof (rexp_ge_emin (Zpos m) e) as Hemin.
  pose proof (rexp_ge_digits (Zpos m) e) as Hdig.
  destruct (Zdigits2_bounds (Zpos m) ltac:(lia)) as [Hlo Hhi].
  repeat split; try lia.
  - apply Z.lt_le_trans with (1 := Hhi). apply Z.pow_le_mono_r; lia.
  - intros Hgt. destruct (rexp_cases (Zpos m) e) as [Hc|Hc]; [|lia].
    replace 23 with (Zdigits2 (Zpos m) - 1) by lia. exact Hlo.
Qed.

(** The order of two valid positive finite floats, on their mantissas. *)
Lemma ltb_finite (m1 m2 : positive) (e1 e2 : Z) :
  Float32.valid (S754_finite false m1 e1) = true ->
  Float32.valid (S754_finite false m2 e2) = true ->
  Float32.ltb (S754_finite false m1 e1) (S754_finite false m2 e2) = true ->
  e1 <= e2 /\ Zpos m1 <= Zpos m2 * 2 ^ (e2 - e1).
Proof.
  intros Hv1 Hv2 Hlt.
  destruct (valid_mantissa m1 e1 Hv1) as (Hmin1 & Hm1 & _).
  destruct (valid_mantissa m2 e2 Hv2) as (_ & _ & Hm2).
  unfold Float32.ltb, SFltb, SFcompare in Hlt.
  destruct (Z.compare_spec e1 e2) as [He|He|He]; try discriminate Hlt.
  - subst e2. replace (e1 - e1) with 0 by lia. change (2 ^ 0) with 1.
    assert (Hpc : (m1 < m2)%positive).
    { destruct (Pos.compare_cont Eq m1 m2) eqn:Hcc; try discriminate Hlt.
      now apply Pos.compare_lt_iff. }
    lia.
  - split; [lia|].
    assert (2 ^ 1 <= 2 ^ (e2 - e1)) by (apply Z.pow_le_mono_r; lia).
    change (2 ^ 1) with 2 in *.
    specialize (Hm2 ltac:(lia)).
    change (2 ^ 24) with (2 ^ 23 * 2) in Hm1. nia.
Qed.

(** With one and the same prescaler the product is monotone. *)
Lemma product_monotone_same (t1 t2 : Float32.float) :
  Float32.valid t1 = true -> Float32.valid t2 = true ->
  positive_timeout t1 = true -> Float32.ltb t1 t2 = true ->
  realizable t1 = true -> realizable t2 = true ->
  Prescaler t1 = Prescaler t2 ->
  product t1 <= product t2.
Proof.
  intros Hv1 Hv2 Hp1 Hlt Hr1 Hr2 Hsame.
  destruct (positive_realizable_finite t1 Hp1 Hr1) as (m1 & e1 & ->).
  assert (Hp2 : positive_timeout t2 = true).
  { destruct t2 as [s|s| |s m e]; try discriminate Hlt.
    - destruct s; [discriminate Hlt|reflexivity].
    - destruct s; [discriminate Hlt|reflexivity]. }
  destruct (positive_realizable_finite t2 Hp2 Hr2) as (m2 & e2 & ->).
  destruct (ltb_finite m1 m2 e1 e2 Hv1 Hv2 Hlt) as [He Hm].
  unfold product, realizable in *. rewrite !ReloadValue_eq.
  rewrite <- Hsame in *.
  pose proof (Prescaler_in (S754_finite false m1 e1)) as Hin.
  set (p := Prescaler (S754_finite false m1 e1)) in *.
  destruct (counts_spec m1 e1 p Hv1 Hin Hr1) as (Hge1 & _ & Hc1 & _).
  destruct (counts_spec m2 e2 p Hv2 Hin Hr2) as (Hge2 & H12 & Hc2 & _).
  destruct (prescaler_quot p Hin) as (Hp0 & Hk & _ & _).
  rewrite Hc1, Hc2.
  apply Z.mul_le_mono_nonneg_l; [lia|].
  apply rfloor_mono_gen; try lia; nia.
Qed.

(** C7 as stated fails across the step from prescaler 8 to prescaler 16:
    0.7252197265625 gets prescaler 8 and reload 4079, product 32632;
    the larger 0.725341796875 gets prescaler 16 and reload 2039,
    product 32624. *)
Lemma product_not_monotone :
  Float32.valid Float32.below_step = true /\
  Float32.valid Float32.above_step = true /\
  positive_timeout Float32.below_step = true /\
  Float32.ltb Float32.below_step Float32.above_step = true /\
  realizable Float32.below_step = true /\
  realizable Float32.above_step = true /\
  Prescaler Float32.below_step = 8 /\ ReloadValue Float32.below_step = 4079 /\
  Prescaler Float32.above_step = 16 /\ ReloadValue Float32.above_step = 2039 /\
  ~ product Float32.below_step <= product Float32.above_step.
Proof.
  repeat split; try reflexivity.
  vm_compute. intros H. apply H. reflexivity.
Qed.

(** * Further properties of [Configure] and [Service] *)

(** ** When a test of [Configure] succeeds *)

Lemma rmant_normal (a e : Z) :
  0 < a -> e <= rexp a e -> -149 < rexp a e -> 2 ^ 23 <= rmant a e.
Proof.
  intros Ha He Hn. unfold rmant. apply rne_ge_multiple; [lia|].
  destruct (rexp_cases a e) as [Hc|Hc]; [|lia].
  destruct (Zdigits2_bounds a Ha) as [Hd _].
  rewrite <- Z.pow_add_r by lia.
  replace (23 + (rexp a e - e)) with (Zdigits2 a - 1) by lia. exact Hd.
Qed.

(** A rounded positive value whose integer part is below the integer [c]
    compares below the float constant [c = mc * 2^ec]. *)
Lemma ltb_round_finish (m' e' : Z) (mc : positive) (ec c : Z) :
  0 < m' <= 2 ^ 24 -> (-149 < e' -> 2 ^ 23 <= m') -> e' <= 0 ->
  -149 <= ec <= 0 -> 2 ^ 23 <= Zpos mc < 2 ^ 24 -> Zpos mc = c * 2 ^ (- ec) ->
  m' / 2 ^ (- e') < c ->
  Float32.ltb (round_finish false m' e') (S754_finite false mc ec) = true.
Proof.
  intros Hm Hnorm He Hec Hmc Hc Hlt.
  assert (Hpe : 0 < 2 ^ (- e')) by (apply Z.pow_pos_nonneg; lia).
  assert (Hpc : 0 < 2 ^ (- ec)) by (apply Z.pow_pos_nonneg; lia).
  assert (Hlt' : m' < c * 2 ^ (- e')).
  { pose proof (Z.div_mod m' (2 ^ (- e')) ltac:(lia)).
    pose proof (Z.mod_pos_bound m' (2 ^ (- e')) Hpe). nia. }
  assert (Hc0 : 0 < c) by nia.
  assert (Hge : ec <= e' -> c * 2 ^ (- e') * 2 ^ (e' - ec) = Zpos mc).
  { intros Hle. rewrite Hc, <- Z.mul_assoc, <- Z.pow_add_r by lia.
    f_equal. f_equal. lia. }
  unfold round_finish.
  destruct (Z.eqb_spec m' (2 ^ 24)) as [E24|N24].
  - destruct (Z.leb_spec (e' + 1) 104) as [_|Hbig]; [|lia].
    unfold Float32.ltb, SFltb, SFcompare.
    destruct (Z.compare_spec (e' + 1) ec) as [Heq|Hl|Hg]; try reflexivity.
    + assert (Hmc2 : c * 2 ^ (- e') = 2 * Zpos mc).
      { rewrite Hc. replace (- e') with (- ec + 1) by lia.
        rewrite Z.pow_add_r by lia. change (2 ^ 1) with 2. ring. }
      assert (Hp : (8388608 < mc)%positive).
      { change (2 ^ 24) with (2 * 8388608) in E24. lia. }
      apply Pos.compare_lt_iff in Hp.
      rewrite Pos.compare_cont_spec, Hp. reflexivity.
    + exfalso. specialize (Hge ltac:(lia)).
      assert (Hone : 0 < 2 ^ (e' - ec)) by (apply Z.pow_pos_nonneg; lia).
      nia.
  - destruct m' as [|p|p]; try lia.
    destruct (Z.leb_spec e' 104) as [_|Hbig]; [|lia].
    unfold Float32.ltb, SFltb, SFcompare.
    destruct (Z.compare_spec e' ec) as [Heq|Hl|Hg]; try reflexivity.
    + subst e'. rewrite <- Hc in Hlt'.
      assert (Hp : (p < mc)%positive) by lia.
      apply Pos.compare_lt_iff in Hp.
      rewrite Pos.compare_cont_spec, Hp. reflexivity.
    + exfalso. specialize (Hge ltac:(lia)). specialize (Hnorm ltac:(lia)).
      assert (Htwo : 2 ^ 1 <= 2 ^ (e' - ec)) by (apply Z.pow_le_mono_r; lia).
      change (2 ^ 1) with 2 in Htwo.
      change (2 ^ 24) with (2 * 2 ^ 23) in Hmc. nia.
Qed.

(** The conversion of a rounded positive value whose integer part fits 16
    bits: no saturation, no wrap-around. *)
Lemma cast_round_finish_small (m' e' : Z) :
  0 < m' <= 2 ^ 24 -> e' <= 0 -> m' / 2 ^ (- e') <= 65535 ->
  to_uint16 (Float32.to_uint32 (round_finish false m' e')) = m' / 2 ^ (- e').
Proof.
  intros Hm He Hle.
  assert (Hpe : 0 < 2 ^ (- e')) by (apply Z.pow_pos_nonneg; lia).
  assert (H0 : 0 <= m' / 2 ^ (- e')) by (apply Z.div_pos; lia).
  assert (Hcast : Float32.to_uint32 (round_finish false m' e')
                  = Z.min (m' / 2 ^ (- e')) 0xFFFFFFFF).
  { unfold round_finish.
    destruct (Z.eqb_spec m' (2 ^ 24)) as [E24|N24].
    - assert (He1 : e' + 1 <= 0).
      { destruct (Z.eq_dec e' 0) as [->|]; [|lia].
        rewrite E24 in Hle. vm_compute in Hle. now contradiction Hle. }
      destruct (Z.leb_spec (e' + 1) 104) as [_|Hbig]; [|lia].
      unfold Float32.to_uint32, Float32.trunc_pos.
      rewrite Z.shiftl_div_pow2 by lia. rewrite E24.
      replace (- e') with (1 + - (e' + 1)) by lia.
      rewrite Z.pow_add_r by lia.
      change (2 ^ 24) with (2 ^ 1 * 8388608).
      rewrite Z.div_mul_cancel_l; lia.
    - destruct m' as [|p|p]; try lia.
      destruct (Z.leb_spec e' 104) as [_|Hbig]; [|lia].
      unfold Float32.to_uint32, Float32.trunc_pos.
      rewrite Z.shiftl_div_pow2 by lia. reflexivity. }
  rewrite Hcast. unfold to_uint16.
  rewrite Z.min_l by lia. apply Z.mod_small. lia.
Qed.

Lemma rexp_small (a e B : Z) :
  0 < a -> e <= 0 -> 0 <= B <= 24 -> a < 2 ^ B * 2 ^ (- e) -> rexp a e <= 0.
Proof.
  intros Ha He HB Hlt.
  rewrite <- Z.pow_add_r in Hlt by lia.
  pose proof (Zdigits2_le a (B + - e) Ha ltac:(lia) Hlt).
  unfold rexp, fexp, emin, Float32.prec, Float32.emax. lia.
Qed.

Lemma rfloor_le (a e C : Z) :
  0 < a -> e <= rexp a e -> rexp a e <= 0 -> a <= C * 2 ^ (- e) ->
  rfloor a e <= C.
Proof.
  intros Ha He H0 Hle. unfold rfloor, rmant.
  set (e' := rexp a e) in *.
  assert (Hpe : 0 < 2 ^ (- e')) by (apply Z.pow_pos_nonneg; lia).
  assert (Hm : rne a (e' - e) <= C * 2 ^ (- e')).
  { apply rne_le_multiple; [lia|].
    rewrite <- Z.mul_assoc, <- Z.pow_add_r by lia.
    replace (- e' + (e' - e)) with (- e) by lia. exact Hle. }
  apply Z.le_trans with (C * 2 ^ (- e') / 2 ^ (- e')).
  - apply Z.div_le_mono; lia.
  - rewrite Z.div_mul by lia. lia.
Qed.

Lemma rfloor_ge (a e C : Z) :
  0 < a -> e <= rexp a e -> rexp a e <= 0 -> C * 2 ^ (- e) <= a ->
  C <= rfloor a e.
Proof.
  intros Ha He H0 Hle.
  pose proof (rfloor_lower a e Ha He H0) as Hlo.
  assert (C <= a / 2 ^ (- e)).
  { apply Z.div_le_lower_bound; [apply Z.pow_pos_nonneg; lia|lia]. }
  lia.
Qed.

Lemma counts_cast_generic (m : positive) (e k : Z) (mk : positive) (ek : Z) :
  Float32.valid (S754_finite false m e) = true ->
  ek < 0 -> 0 < k -> Zpos mk = k * 2 ^ (- ek) ->
  rexp (Zpos m * k) e <= 0 -> rfloor (Zpos m * k) e <= 65535 ->
  to_uint16 (Float32.to_uint32
               (Float32.mul (S754_finite false m e) (S754_finite false mk ek)))
  = rfloor (Zpos m * k) e.
Proof.
  intros Hv Hek Hk Hmk H0 Hle.
  destruct (valid_mantissa m e Hv) as (Hemin & _ & _).
  destruct (mul_const_spec false m e mk ek k Hv Hek Hk Hmk) as [Hge Hmul].
  rewrite Hmul. unfold rfloor in *.
  apply cast_round_finish_small; try assumption.
  split; [apply rmant_pos; nia|apply rne_rexp_bound; nia].
Qed.

Lemma counts_ltb_generic (m : positive) (e k c : Z) (mk mc : positive) (ek ec : Z) :
  Float32.valid (S754_finite false m e) = true ->
  ek < 0 -> 0 < k -> Zpos mk = k * 2 ^ (- ek) ->
  -149 <= ec <= 0 -> 2 ^ 23 <= Zpos mc < 2 ^ 24 -> Zpos mc = c * 2 ^ (- ec) ->
  rexp (Zpos m * k) e <= 0 -> rfloor (Zpos m * k) e < c ->
  Float32.ltb (Float32.mul (S754_finite false m e) (S754_finite false mk ek))
              (S754_finite false mc ec) = true.
Proof.
  intros Hv Hek Hk Hmk Hec Hmc Hc H0 Hlt.
  destruct (valid_mantissa m e Hv) as (Hemin & _ & _).
  destruct (mul_const_spec false m e mk ek k Hv Hek Hk Hmk) as [Hge Hmul].
  rewrite Hmul. unfold rfloor in *.
  apply (ltb_round_finish _ _ mc ec c); try assumption.
  - split; [apply rmant_pos; nia|apply rne_rexp_bound; nia].
  - intros Hn. apply rmant_normal; nia.
Qed.

(** The count of a valid positive finite timeout converts to
    [rfloor (m * k) e] whenever that fits 16 bits. *)
Lemma counts_cast (m : positive) (e p : Z) :
  let t := S754_finite false m e in
  let k := Z.quot LsiFreq p in
  Float32.valid t = true -> In p prescalers ->
  rexp (Zpos m * k) e <= 0 -> rfloor (Zpos m * k) e <= 65535 ->
  to_uint16 (Float32.to_uint32 (counts t p)) = rfloor (Zpos m * k) e.
Proof.
  intros t k Hv Hin H0 Hle. subst t k.
  unfold counts, prescalers in *. simpl in Hin.
  repeat (destruct Hin as [<-|Hin]); try contradiction;
    repeat eval_const;
    match goal with
    | |- context [Float32.mul _ (S754_finite false ?mk ?ek)] =>
        match goal with
        | |- context [Z.quot LsiFreq ?p] =>
            apply (counts_cast_generic m e (Z.quot LsiFreq p) mk ek);
            first [exact Hv | exact H0 | exact Hle | reflexivity]
        end
    end.
Qed.

(** The test of [Configure] for the prescaler [p], on the integers. *)
Lemma bound_holds_iff (m : positive) (e p : Z) :
  let t := S754_finite false m e in
  let k := Z.quot LsiFreq p in
  Float32.valid t = true -> In p prescalers ->
  (bound_holds t p = true <->
   rexp (Zpos m * k) e <= 0 /\ rfloor (Zpos m * k) e < bound p).
Proof.
  intros t k Hv Hin. split.
  - intros Hb. destruct (counts_spec m e p Hv Hin Hb) as (_ & H12 & _ & Hlt).
    fold k in H12, Hlt. split; [lia|exact Hlt].
  - intros [H0 Hlt]. subst t k.
    unfold bound_holds, counts, prescalers in *. simpl in Hin.
    repeat (destruct Hin as [<-|Hin]); try contradiction;
      repeat eval_const;
      match goal with
      | |- Float32.ltb (Float32.mul _ (S754_finite false ?mk ?ek))
                       (S754_finite false ?mc ?ec) = true =>
          match type of Hlt with
          | rfloor (_ * Z.quot LsiFreq ?p) _ < _ =>
              apply (counts_ltb_generic m e (Z.quot LsiFreq p) (bound p) mk mc ek ec);
              first [exact Hv | exact H0 | exact Hlt | reflexivity
                    | (vm_compute; intuition discriminate)]
          end
      end.
Qed.

(** ** Exact counts, cleared of denominators *)

Lemma positive_finite (t : Float32.float) :
  positive_timeout t = true -> finite_timeout t = true ->
  exists m e, t = S754_finite false m e.
Proof.
  intros Hp Hf. destruct t as [s|s| |s m e]; try discriminate Hp; try discriminate Hf.
  destruct s; [discriminate Hp|]. now exists m, e.
Qed.

Lemma exact_counts_le (m : positive) (e p C : Z) :
  (exact_counts (S754_finite false m e) p <= inject_Z C)%Q <->
  Zpos m * Z.quot LsiFreq p * 2 ^ Z.max e 0 <= C * 2 ^ Z.max (- e) 0.
Proof.
  unfold exact_counts, Float32.to_Q.
  destruct (Z.leb_spec 0 e) as [He|He].
  - rewrite Z.max_l, Z.max_r by lia. change (2 ^ 0) with 1.
    unfold Qle, Qmult, inject_Z. cbn [Qnum Qden]. lia.
  - rewrite Z.max_r, Z.max_l by lia. change (2 ^ 0) with 1.
    assert (Hd : Zpos (Z.to_pos (2 ^ (- e))) = 2 ^ (- e)).
    { apply Z2Pos.id. apply Z.pow_pos_nonneg; lia. }
    unfold Qle, Qmult, inject_Z. cbn [Qnum Qden].
    rewrite Pos2Z.inj_mul, Hd. lia.
Qed.

Lemma exact_counts_lt (m : positive) (e p C : Z) :
  (exact_counts (S754_finite false m e) p < inject_Z C)%Q <->
  Zpos m * Z.quot LsiFreq p * 2 ^ Z.max e 0 < C * 2 ^ Z.max (- e) 0.
Proof.
  unfold exact_counts, Float32.to_Q.
  destruct (Z.leb_spec 0 e) as [He|He].
  - rewrite Z.max_l, Z.max_r by lia. change (2 ^ 0) with 1.
    unfold Qlt, Qmult, inject_Z. cbn [Qnum Qden]. lia.
  - rewrite Z.max_r, Z.max_l by lia. change (2 ^ 0) with 1.
    assert (Hd : Zpos (Z.to_pos (2 ^ (- e))) = 2 ^ (- e)).
    { apply Z2Pos.id. apply Z.pow_pos_nonneg; lia. }
    unfold Qlt, Qmult, inject_Z. cbn [Qnum Qden].
    rewrite Pos2Z.inj_mul, Hd. lia.
Qed.

Lemma exact_counts_ge (m : positive) (e p C : Z) :
  (inject_Z C <= exact_counts (S754_finite false m e) p)%Q <->
  C * 2 ^ Z.max (- e) 0 <= Zpos m * Z.quot LsiFreq p * 2 ^ Z.max e 0.
Proof.
  unfold exact_counts, Float32.to_Q.
  destruct (Z.leb_spec 0 e) as [He|He].
  - rewrite (Z.max_l e 0), (Z.max_r (- e) 0) by lia. change (2 ^ 0) with 1.
    unfold Qle, Qmult, inject_Z. cbn [Qnum Qden].
    rewrite ?Pos2Z.inj_mul. lia.
  - rewrite (Z.max_r e 0), (Z.max_l (- e) 0) by lia. change (2 ^ 0) with 1.
    assert (Hd : Zpos (Z.to_pos (2 ^ (- e))) = 2 ^ (- e)).
    { apply Z2Pos.id. apply Z.pow_pos_nonneg; lia. }
    unfold Qle, Qmult, inject_Z. cbn [Qnum Qden].
    rewrite Pos2Z.inj_mul, Hd. lia.
Qed.

(** A valid positive finite timeout whose exact count for [p] is at most
    [C <= 65535] has a negative exponent; its count is rounded on a grid
    finer than 1 and the integer part of the rounded count is at most [C]. *)
Lemma exact_small (m : positive) (e p C : Z) :
  let a := Zpos m * Z.quot LsiFreq p in
  Float32.valid (S754_finite false m e) = true -> In p prescalers ->
  C <= 65535 ->
  Zpos m * Z.quot LsiFreq p * 2 ^ Z.max e 0 <= C * 2 ^ Z.max (- e) 0 ->
  e < 0 /\ 0 < a /\ a <= C * 2 ^ (- e) /\
  e <= rexp a e /\ rexp a e <= 0 /\ rfloor a e <= C.
Proof.
  intros a Hv Hin HC Hle. subst a.
  destruct (valid_mantissa m e Hv) as (Hemin & Hm24 & Hm23).
  destruct (prescaler_quot p Hin) as (_ & Hk & _ & _).
  set (k := Z.quot LsiFreq p) in *.
  assert (Hk1 : 1 <= k) by lia.
  assert (He : e < 0).
  { destruct (Z_lt_ge_dec e 0) as [|Hge]; [assumption|exfalso].
    rewrite Z.max_l, Z.max_r in Hle by lia. change (2 ^ 0) with 1 in Hle.
    specialize (Hm23 ltac:(lia)).
    assert (Hp : 0 < 2 ^ e) by (apply Z.pow_pos_nonneg; lia).
    change (2 ^ 23) with 8388608 in Hm23. nia. }
  rewrite Z.max_r, Z.max_l in Hle by lia. change (2 ^ 0) with 1 in Hle.
  assert (Ha : 0 < Zpos m * k) by nia.
  assert (Hge : e <= rexp (Zpos m * k) e).
  { destruct (valid_finite _ _ _ Hv) as [Heq _]. rewrite Heq at 1.
    apply rexp_mono; nia. }
  assert (Hpn : 0 < 2 ^ (- e)) by (apply Z.pow_pos_nonneg; lia).
  assert (H0 : rexp (Zpos m * k) e <= 0).
  { apply (rexp_small _ _ 16); try lia. change (2 ^ 16) with 65536. nia. }
  repeat split; try lia.
  apply rfloor_le; lia.
Qed.

(** ** The chain of tests *)

Lemma Prescaler_tested (t : Float32.float) :
  Prescaler t <> 256 -> bound_holds t (Prescaler t) = true.
Proof.
  unfold Prescaler. rewrite select_prescaler_eq.
  destruct (bound_holds t 4) eqn:H4; [intros _; exact H4|].
  destruct (bound_holds t 8) eqn:H8; [intros _; exact H8|].
  destruct (bound_holds t 16) eqn:H16; [intros _; exact H16|].
  destruct (bound_holds t 32) eqn:H32; [intros _; exact H32|].
  destruct (bound_holds t 64) eqn:H64; [intros _; exact H64|].
  destruct (bound_holds t 128) eqn:H128; [intros _; exact H128|].
  intros H. now contradiction H.
Qed.

Lemma Prescaler_range (t : Float32.float) : 4 <= Prescaler t <= 256.
Proof.
  pose proof (Prescaler_in t) as Hin. unfold prescalers in Hin. simpl in Hin.
  repeat (destruct Hin as [<-|Hin]); try contradiction; lia.
Qed.

Lemma Prescaler_le (t : Float32.float) (p : Z) :
  In p prescalers -> bound_holds t p = true -> Prescaler t <= p.
Proof.
  intros Hin Hb. unfold Prescaler. rewrite select_prescaler_eq.
  unfold prescalers in Hin. simpl in Hin.
  repeat (destruct Hin as [<-|Hin]); try contradiction;
    repeat match goal with
           | |- context [if bound_holds t ?q then _ else _] =>
               destruct (bound_holds t q) eqn:?
           end; simpl; try lia; congruence.
Qed.

Lemma Prescaler_intro (t : Float32.float) (p : Z) :
  In p prescalers ->
  (forall q, In q prescalers -> q < p -> bound_holds t q = false) ->
  p = 256 \/ bound_holds t p = true ->
  Prescaler t = p.
Proof.
  intros Hin Hsmall Hp.
  assert (Hle : p <= Prescaler t).
  { destruct (Z_le_gt_dec p (Prescaler t)) as [|Hgt]; [assumption|exfalso].
    assert (Hne : Prescaler t <> 256).
    { unfold prescalers in Hin. simpl in Hin.
      repeat (destruct Hin as [<-|Hin]); try contradiction; lia. }
    pose proof (Prescaler_tested t Hne) as Hb.
    rewrite (Hsmall _ (Prescaler_in t) ltac:(lia)) in Hb. discriminate Hb. }
  destruct Hp as [->|Hb].
  - pose proof (Prescaler_range t). lia.
  - pose proof (Prescaler_le t p Hin Hb). lia.
Qed.

Lemma bound_le (p : Z) : In p prescalers -> 0x7FF <= bound p <= 0xFF0.
Proof.
  unfold prescalers. simpl. intros H.
  repeat (destruct H as [<-|H]); try contradiction; vm_compute;
    split; discriminate.
Qed.

(** ** The reload value and the 12-bit reload register *)

(** X1: for every valid positive timeout for which [Configure] selects its
    prescaler by one of the six tests (any prescaler but 256), the reload
    value is below the bound that was tested, hence at most 0xFEF: it fits
    the 12-bit reload register. *)
Theorem reload_fits_when_tested (t : Float32.float) :
  Float32.valid t = true -> positive_timeout t = true ->
  Prescaler t <> 256 ->
  0 <= ReloadValue t < bound (Prescaler t) /\ ReloadValue t <= 0xFEF.
Proof.
  intros Hv Hp Hne.
  pose proof (Prescaler_tested t Hne) as Hb.
  destruct (positive_realizable_finite t Hp Hb) as (m & e & ->).
  pose proof (Prescaler_in (S754_finite false m e)) as Hin.
  destruct (reload_bounds_Z m e _ Hv Hin Hb) as (_ & Hrange & _ & _).
  rewrite ReloadValue_eq.
  pose proof (bound_le _ Hin) as Hbd. change 0xFF0 with 4080 in Hbd.
  change 0xFEF with 4079. lia.
Qed.

Lemma reload_fits_when_tested_witness :
  0 <= ReloadValue Float32.eleven < bound (Prescaler Float32.eleven) /\
  ReloadValue Float32.eleven <= 0xFEF.
Proof.
  apply (reload_fits_when_tested Float32.eleven);
    [reflexivity|reflexivity|vm_compute; discriminate].
Defined.

Lemma quot_ge_175 (q : Z) : In q prescalers -> 175 <= Z.quot LsiFreq q.
Proof.
  unfold prescalers. simpl. intros H.
  repeat (destruct H as [<-|H]); try contradiction; vm_compute; discriminate.
Qed.

(** A test that succeeds bounds the exact count ... *)
Lemma bound_holds_lt (m : positive) (e p : Z) :
  Float32.valid (S754_finite false m e) = true -> In p prescalers ->
  bound_holds (S754_finite false m e) p = true ->
  e < 0 /\ Zpos m * Z.quot LsiFreq p < bound p * 2 ^ (- e).
Proof.
  intros Hv Hin Hb.
  destruct (counts_spec m e p Hv Hin Hb) as (Hge & H12 & _ & Hlt).
  destruct (prescaler_quot p Hin) as (_ & Hk & _ & _).
  set (a := Zpos m * Z.quot LsiFreq p) in *.
  assert (Ha : 0 < a) by (unfold a; nia).
  pose proof (rfloor_lower a e Ha Hge ltac:(lia)) as Hlo.
  assert (Hpn : 0 < 2 ^ (- e)) by (apply Z.pow_pos_nonneg; lia).
  split; [lia|].
  pose proof (Z.div_mod a (2 ^ (- e)) ltac:(lia)).
  pose proof (Z.mod_pos_bound a (2 ^ (- e)) Hpn). nia.
Qed.

(** ... and an exact count at most [bound p - 1] makes the test succeed. *)
Lemma bound_holds_intro (m : positive) (e p : Z) :
  Float32.valid (S754_finite false m e) = true -> In p prescalers ->
  Zpos m * Z.quot LsiFreq p * 2 ^ Z.max e 0 <= (bound p - 1) * 2 ^ Z.max (- e) 0 ->
  bound_holds (S754_finite false m e) p = true.
Proof.
  intros Hv Hin Hle.
  pose proof (bound_le p Hin) as Hbd. change 0xFF0 with 4080 in Hbd.
  destruct (exact_small m e p (bound p - 1) Hv Hin ltac:(lia) Hle)
    as (_ & _ & _ & _ & H0 & Hfl).
  apply (bound_holds_iff m e p Hv Hin). split; [exact H0|lia].
Qed.

(** X2: for every valid positive finite timeout whose exact count for
    prescaler 256, [timeout * 175], lies between 4096 and 65535 (about 23.4 s
    to 374 s), [Configure] selects 256 and stores a reload value above
    0x0FFF, which the 12-bit reload register cannot hold. *)
Theorem reload_exceeds_12_bits (t : Float32.float) :
  Float32.valid t = true -> positive_timeout t = true -> finite_timeout t = true ->
  (inject_Z 4096 <= exact_counts t 256)%Q ->
  (exact_counts t 256 <= inject_Z 65535)%Q ->
  Prescaler t = 256 /\
  0x0FFF < ReloadValue t <= 65535 /\
  (forall (w : Watchdog) (b : board),
      RLR (IWDG (snd (Configure w t b))) = ReloadValue t).
Proof.
  intros Hv Hp Hf Hlo Hhi.
  destruct (positive_finite t Hp Hf) as (m & e & ->).
  apply exact_counts_ge in Hlo. apply exact_counts_le in Hhi.
  assert (Hin : In 256 prescalers) by (simpl; tauto).
  destruct (exact_small m e 256 65535 Hv Hin ltac:(lia) Hhi)
    as (He & Ha & Hale & Hge & H0 & Hfl).
  rewrite (Z.max_r e 0), (Z.max_l (- e) 0) in Hlo by lia.
  change (2 ^ 0) with 1 in Hlo.
  change (Z.quot LsiFreq 256) with 175 in *.
  assert (Hpn : 0 < 2 ^ (- e)) by (apply Z.pow_pos_nonneg; lia).
  assert (HP : Prescaler (S754_finite false m e) = 256).
  { apply Prescaler_intro; [exact Hin| |now left].
    intros q Hq Hlt.
    destruct (bound_holds (S754_finite false m e) q) eqn:Hb; [exfalso|reflexivity].
    destruct (bound_holds_lt m e q Hv Hq Hb) as [_ Hx].
    pose proof (quot_ge_175 q Hq). pose proof (bound_le q Hq) as Hbd.
    change 0xFF0 with 4080 in Hbd. nia. }
  assert (HR : ReloadValue (S754_finite false m e) = rfloor (Zpos m * 175) e).
  { rewrite ReloadValue_eq, HP. apply (counts_cast m e 256 Hv Hin H0 Hfl). }
  split; [exact HP|]. split.
  - rewrite HR. split; [|exact Hfl].
    assert (4096 <= rfloor (Zpos m * 175) e) by (apply rfloor_ge; lia).
    change 0x0FFF with 4095. lia.
  - intros w b. rewrite Configure_eq. reflexivity.
Qed.

Lemma reload_exceeds_12_bits_witness :
  Prescaler Float32.hundred = 256 /\
  0x0FFF < ReloadValue Float32.hundred <= 65535 /\
  (forall (w : Watchdog) (b : board),
      RLR (IWDG (snd (Configure w Float32.hundred b)))
      = ReloadValue Float32.hundred).
Proof.
  apply (reload_exceeds_12_bits Float32.hundred); try reflexivity;
    vm_compute; discriminate.
Defined.

(** X3: for every valid positive finite timeout whose exact count for the
    selected prescaler is at most 65535, the reload value lies between the
    floor and the ceiling of the exact count [timeout * (LsiFreq / p)]: it
    is the truncated count, or one more when the binary32 product rounds up
    to the next integer.  The fallback to 256 is included. *)
Theorem reload_floor_ceiling (t : Float32.float) :
  Float32.valid t = true -> positive_timeout t = true -> finite_timeout t = true ->
  (exact_counts t (Prescaler t) <= inject_Z 65535)%Q ->
  Qfloor (exact_counts t (Prescaler t)) <= ReloadValue t
  <= Qceiling (exact_counts t (Prescaler t)).
Proof.
  intros Hv Hp Hf Hhi.
  destruct (positive_finite t Hp Hf) as (m & e & ->).
  pose proof (Prescaler_in (S754_finite false m e)) as Hin.
  rewrite ReloadValue_eq.
  set (p := Prescaler (S754_finite false m e)) in *.
  apply exact_counts_le in Hhi.
  destruct (exact_small m e p 65535 Hv Hin ltac:(lia) Hhi)
    as (He & Ha & Hale & Hge & H0 & Hfl).
  rewrite (counts_cast m e p Hv Hin H0 Hfl).
  set (a := Zpos m * Z.quot LsiFreq p) in *.
  assert (Hpn : 0 < 2 ^ (- e)) by (apply Z.pow_pos_nonneg; lia).
  assert (Hd : Zpos (Z.to_pos (2 ^ (- e))) = 2 ^ (- e)) by (apply Z2Pos.id; lia).
  pose proof (rfloor_lower a e Ha Hge H0) as Hlo.
  pose proof (rfloor_upper a e Ha Hge H0) as Hup.
  unfold Qceiling, Qfloor, exact_counts, Float32.to_Q.
  destruct (Z.leb_spec 0 e) as [He0|_]; [lia|].
  unfold Qopp, Qmult, inject_Z. cbn [Qnum Qden].
  rewrite Pos2Z.inj_mul, Hd, Z.mul_1_r. fold a.
  split; [exact Hlo|].
  pose proof (Z.div_mod (- a) (2 ^ (- e)) ltac:(lia)).
  pose proof (Z.mod_pos_bound (- a) (2 ^ (- e)) Hpn). nia.
Qed.

Lemma reload_floor_ceiling_witness :
  Qfloor (exact_counts Float32.hundred (Prescaler Float32.hundred))
  <= ReloadValue Float32.hundred
  <= Qceiling (exact_counts Float32.hundred (Prescaler Float32.hundred)).
Proof.
  apply (reload_floor_ceiling Float32.hundred); try reflexivity;
    vm_compute; discriminate.
Defined.

(** ** The tests against the exact counts *)

(** X4: for every valid positive finite timeout and every prescaler [p] of
    the set, the test of [p] is sound and nearly complete against exact
    arithmetic: if the test succeeds, the exact count
    [timeout * (LsiFreq / p)] is below the bound; if the exact count is at
    most the bound minus 1, the test succeeds.  (In between, the rounding
    of the product decides.) *)
Theorem test_against_exact_count (t : Float32.float) (p : Z) :
  Float32.valid t = true -> positive_timeout t = true -> finite_timeout t = true ->
  In p prescalers ->
  (bound_holds t p = true -> (exact_counts t p < inject_Z (bound p))%Q) /\
  ((exact_counts t p <= inject_Z (bound p - 1))%Q -> bound_holds t p = true).
Proof.
  intros Hv Hp Hf Hin.
  destruct (positive_finite t Hp Hf) as (m & e & ->).
  split.
  - intros Hb. destruct (bound_holds_lt m e p Hv Hin Hb) as [He Hlt].
    apply exact_counts_lt.
    rewrite Z.max_r, Z.max_l by lia. change (2 ^ 0) with 1. lia.
  - intros Hle. apply exact_counts_le in Hle.
    now apply bound_holds_intro.
Qed.

Lemma test_against_exact_count_witness :
  (bound_holds Float32.one 16 = true ->
   (exact_counts Float32.one 16 < inject_Z (bound 16))%Q) /\
  ((exact_counts Float32.one 16 <= inject_Z (bound 16 - 1))%Q ->
   bound_holds Float32.one 16 = true).
Proof.
  apply (test_against_exact_count Float32.one 16); try reflexivity.
  simpl. tauto.
Defined.

(** X5: the prescaler that [Configure] selects, read off the exact counts:
    for a valid positive finite timeout, if the exact count of every
    smaller prescaler is at least its bound, and [p] is 256 or the exact
    count of [p] is at most its bound minus 1, then [p] is selected. *)
Theorem Prescaler_from_exact_counts (t : Float32.float) (p : Z) :
  Float32.valid t = true -> positive_timeout t = true -> finite_timeout t = true ->
  In p prescalers ->
  (forall q, In q prescalers -> q < p ->
             (inject_Z (bound q) <= exact_counts t q)%Q) ->
  p = 256 \/ (exact_counts t p <= inject_Z (bound p - 1))%Q ->
  Prescaler t = p /\ PrescalerCode t = selector p.
Proof.
  intros Hv Hp Hf Hin Hsmall Hsel.
  destruct (positive_finite t Hp Hf) as (m & e & ->).
  assert (HP : Prescaler (S754_finite false m e) = p).
  { apply Prescaler_intro; [exact Hin| |].
    - intros q Hq Hlt.
      destruct (bound_holds (S754_finite false m e) q) eqn:Hb; [exfalso|reflexivity].
      destruct (bound_holds_lt m e q Hv Hq Hb) as [He Hx].
      specialize (Hsmall q Hq Hlt). apply exact_counts_ge in Hsmall.
      rewrite (Z.max_r e 0), (Z.max_l (- e) 0) in Hsmall by lia.
      change (2 ^ 0) with 1 in Hsmall. lia.
    - destruct Hsel as [->|Hle]; [now left|right].
      apply exact_counts_le in Hle. now apply bound_holds_intro. }
  split; [exact HP|].
  revert HP. unfold Prescaler, PrescalerCode. rewrite select_prescaler_eq.
  repeat match goal with
         | |- context [if bound_holds ?t ?q then _ else _] =>
             destruct (bound_holds t q)
         end; cbn [fst snd]; intros <-; reflexivity.
Qed.

Lemma Prescaler_from_exact_counts_witness :
  Prescaler Float32.one = 16 /\ PrescalerCode Float32.one = selector 16.
Proof.
  apply (Prescaler_from_exact_counts Float32.one 16); try reflexivity.
  - simpl. tauto.
  - intros q Hq Hlt. unfold prescalers in Hq. simpl in Hq.
    repeat (destruct Hq as [<-|Hq]); try contradiction; try lia;
      vm_compute; discriminate.
  - right. vm_compute. discriminate.
Defined.

(** ** Larger timeouts never get a smaller prescaler *)

Lemma bound_holds_antitone (m1 m2 : positive) (e1 e2 p : Z) :
  Float32.valid (S754_finite false m1 e1) = true ->
  Float32.valid (S754_finite false m2 e2) = true ->
  Float32.ltb (S754_finite false m1 e1) (S754_finite false m2 e2) = true ->
  In p prescalers ->
  bound_holds (S754_finite false m2 e2) p = true ->
  bound_holds (S754_finite false m1 e1) p = true.
Proof.
  intros Hv1 Hv2 Hlt Hin Hb2.
  destruct (ltb_finite m1 m2 e1 e2 Hv1 Hv2 Hlt) as [He Hm].
  destruct (counts_spec m2 e2 p Hv2 Hin Hb2) as (Hge2 & H12 & _ & Hlt2).
  destruct (prescaler_quot p Hin) as (_ & Hk & _ & _).
  set (k := Z.quot LsiFreq p) in *.
  assert (Hpow : 0 < 2 ^ (e2 - e1)) by (apply Z.pow_pos_nonneg; lia).
  assert (Hge1 : e1 <= rexp (Zpos m1 * k) e1).
  { destruct (valid_finite _ _ _ Hv1) as [Heq _]. rewrite Heq at 1.
    apply rexp_mono; nia. }
  assert (Ha : Zpos m1 * k <= Zpos m2 * k * 2 ^ (e2 - e1)) by nia.
  assert (Hr : rexp (Zpos m1 * k) e1 <= rexp (Zpos m2 * k) e2).
  { rewrite <- (rexp_shift (Zpos m2 * k) (e2 - e1) e2) by nia.
    replace (e2 - (e2 - e1)) with e1 by lia.
    apply rexp_mono; nia. }
  apply (bound_holds_iff m1 e1 p Hv1 Hin). fold k. split; [lia|].
  apply Z.le_lt_trans with (2 := Hlt2).
  apply rfloor_mono_gen; try lia; nia.
Qed.

(** X6: the selection of the prescaler is monotone: for valid timeouts
    [t1 < t2], the prescaler selected for [t1] is at most the one selected
    for [t2]. *)
Theorem Prescaler_monotone (t1 t2 : Float32.float) :
  Float32.valid t1 = true -> Float32.valid t2 = true ->
  Float32.ltb t1 t2 = true ->
  Prescaler t1 <= Prescaler t2.
Proof.
  intros Hv1 Hv2 Hlt.
  assert (Hnonpos : Float32.leb t1 Float32.zero = true -> Prescaler t1 <= Prescaler t2).
  { intros Hle. destruct (nonpositive_counts t1 Hv1 Hle) as [Hb _].
    pose proof (Prescaler_le t1 4 ltac:(simpl; tauto) Hb).
    pose proof (Prescaler_range t2). lia. }
  destruct t1 as [s1|s1| |s1 m1 e1]; try discriminate Hlt.
  - apply Hnonpos. reflexivity.
  - destruct s1; [apply Hnonpos; reflexivity|].
    destruct t2 as [s2|[|]| |[|] m2 e2]; discriminate Hlt.
  - destruct s1; [apply Hnonpos; reflexivity|].
    destruct t2 as [s2|s2| |s2 m2 e2]; try discriminate Hlt.
    + destruct s2; [discriminate Hlt|].
      change (Prescaler (S754_infinity false)) with 256.
      apply Prescaler_range.
    + destruct s2; [discriminate Hlt|].
      destruct (Z.eq_dec (Prescaler (S754_finite false m2 e2)) 256) as [E|NE].
      * rewrite E. apply Prescaler_range.
      * apply Prescaler_le; [apply Prescaler_in|].
        apply (bound_holds_antitone m1 m2 e1 e2 _ Hv1 Hv2 Hlt (Prescaler_in _)).
        now apply Prescaler_tested.
Qed.

Lemma Prescaler_monotone_witness :
  Prescaler Float32.one <= Prescaler Float32.eleven.
Proof.
  apply (Prescaler_monotone Float32.one Float32.eleven); reflexivity.
Defined.

(** ** Sequences of calls *)

Lemma run_cons (c : call) (cs : list call) (st : Watchdog * board) :
  run (c :: cs) st = run cs (run_call c st).
Proof. reflexivity. Qed.

Lemma run_call_eq (c : call) (w : Watchdog) (b : board) :
  run_call c (w, b) =
  (w, {| RCC_FLAG_IWDGRST := RCC_FLAG_IWDGRST b;
         IWDG := match c with
                 | Call_Configure t =>
                     {| KR := 0xAAAA; PR := PrescalerCode t; RLR := ReloadValue t |}
                 | Call_Service =>
                     {| KR := 0xAAAA; PR := PR (IWDG b); RLR := RLR (IWDG b) |}
                 end;
         stores := stores b ++ call_stores c;
         console := match c with
                    | Call_Configure t =>
                        console b ++ [{| log_prescaler := Prescaler t;
                                         log_reload := ReloadValue t;
                                         log_timeout := Calculated_timeout t |}]
                    | Call_Service => console b
                    end |}).
Proof.
  destruct c as [t|]; cbn [run_call fst snd call_stores].
  - apply Configure_eq.
  - reflexivity.
Qed.

Lemma run_stores (cs : list call) (w : Watchdog) (b : board) :
  stores (snd (run cs (w, b))) = stores b ++ flat_map call_stores cs.
Proof.
  revert b. induction cs as [|c cs IH]; intros b.
  - cbn. now rewrite app_nil_r.
  - rewrite run_cons, run_call_eq, IH. cbn [stores flat_map].
    now rewrite app_assoc.
Qed.

(** X7: after any sequence of [Configure] and [Service] calls the
    prescaler and reload registers hold what the last [Configure] of the
    sequence programmed, whatever calls of [Service] came after it, and
    what they held initially if there was no [Configure]; after any call
    the key register holds the pattern 0xAAAA; the reset flag of the board
    is never changed. *)
Theorem run_registers (cs : list call) (w : Watchdog) (b : board) :
  IWDG (snd (run cs (w, b)))
  = match last_Configure cs with
    | Some t => {| KR := 0xAAAA; PR := PrescalerCode t; RLR := ReloadValue t |}
    | None =>
        match cs with
        | [] => IWDG b
        | _ :: _ => {| KR := 0xAAAA; PR := PR (IWDG b); RLR := RLR (IWDG b) |}
        end
    end /\
  RCC_FLAG_IWDGRST (snd (run cs (w, b))) = RCC_FLAG_IWDGRST b.
Proof.
  revert b. induction cs as [|c cs IH]; intros b.
  - split; reflexivity.
  - rewrite run_cons, run_call_eq.
    destruct (IH {| RCC_FLAG_IWDGRST := RCC_FLAG_IWDGRST b;
         IWDG := match c with
                 | Call_Configure t =>
                     {| KR := 0xAAAA; PR := PrescalerCode t; RLR := ReloadValue t |}
                 | Call_Service =>
                     {| KR := 0xAAAA; PR := PR (IWDG b); RLR := RLR (IWDG b) |}
                 end;
         stores := stores b ++ call_stores c;
         console := match c with
                    | Call_Configure t =>
                        console b ++ [{| log_prescaler := Prescaler t;
                                         log_reload := ReloadValue t;
                                         log_timeout := Calculated_timeout t |}]
                    | Call_Service => console b
                    end |}) as [IHr IHf].
    split; [|exact IHf].
    rewrite IHr. cbn [last_Configure IWDG].
    destruct (last_Configure cs) as [t|]; [reflexivity|].
    destruct cs as [|c' cs]; destruct c as [t|]; reflexivity.
Qed.

(** X8: the stores made by any sequence of calls are the stores of the
    calls one after the other, six for each [Configure] and one for each
    [Service]; and in them every store to the prescaler register directly
    follows the unlock key 0x5555 and is directly followed by the store to
    the reload register, the reload key 0xAAAA, the start key 0xCCCC and the
    reload key of [Service]. *)
Theorem run_stores_protocol (cs : list call) (w : Watchdog) (b : board) :
  stores (snd (run cs (w, b))) = stores b ++ flat_map call_stores cs /\
  (forall (pre post : list reg_write) (c : IWDG_PRESCALER),
      flat_map call_stores cs = pre ++ Write_PR c :: post ->
      exists (pre' post' : list reg_write) (t : Float32.float),
        pre = pre' ++ [Write_KR 0x5555] /\
        c = PrescalerCode t /\
        post = Write_RLR (ReloadValue t) :: Write_KR 0xAAAA :: Write_KR 0xCCCC
               :: Write_KR 0xAAAA :: post') /\
  (forall (pre post : list reg_write) (v : Z),
      flat_map call_stores cs = pre ++ Write_RLR v :: post ->
      exists (pre' : list reg_write) (t : Float32.float),
        pre = pre' ++ [Write_KR 0x5555; Write_PR (PrescalerCode t)] /\
        v = ReloadValue t).
Proof.
  split; [apply run_stores|]. clear w b.
  induction cs as [|c cs [IH1 IH2]].
  - split; intros pre post x H; destruct pre; discriminate H.
  - split; intros pre post x H; cbn [flat_map] in H;
      destruct c as [t|]; cbn [call_stores] in H; unfold Configure_stores in H.
    + destruct pre as [|x0 [|x1 [|x2 [|x3 [|x4 [|x5 pre]]]]]];
        cbn in H; try discriminate H.
      * injection H as Hx Hc Hpost. subst.
        now exists [], (flat_map call_stores cs), t.
      * injection H as <- <- <- <- <- <- H.
        destruct (IH1 _ _ _ H) as (pre' & post' & t' & -> & -> & ->).
        now exists (Write_KR 0x5555 :: Write_PR (PrescalerCode t)
                      :: Write_RLR (ReloadValue t) :: Write_KR 0xAAAA
                      :: Write_KR 0xCCCC :: Write_KR 0xAAAA :: pre'), post', t'.
    + destruct pre as [|x0 pre]; cbn in H; try discriminate H.
      injection H as <- H.
      destruct (IH1 _ _ _ H) as (pre' & post' & t' & -> & -> & ->).
      now exists (Write_KR 0xAAAA :: pre'), post', t'.
    + destruct pre as [|x0 [|x1 [|x2 [|x3 [|x4 [|x5 pre]]]]]];
        cbn in H; try discriminate H.
      * injection H as Hx0 Hx1 Hv _. subst. now exists [], t.
      * injection H as <- <- <- <- <- <- H.
        destruct (IH2 _ _ _ H) as (pre' & t' & -> & ->).
        now exists (Write_KR 0x5555 :: Write_PR (PrescalerCode t)
                      :: Write_RLR (ReloadValue t) :: Write_KR 0xAAAA
                      :: Write_KR 0xCCCC :: Write_KR 0xAAAA :: pre'), t'.
    + destruct pre as [|x0 pre]; cbn in H; try discriminate H.
      injection H as <- H.
      destruct (IH2 _ _ _ H) as (pre' & t' & -> & ->).
      now exists (Write_KR 0xAAAA :: pre'), t'.
Qed.

(** ** The stored selector and the product that is printed *)

(** X9: for every timeout, the infinities and NaN included, the selector
    stored to the prescaler register is the one of the prescaler with which
    the reload value is computed, the reload value fits 16 bits, and the
    [int] product [Prescaler * ReloadValue] is below [2^24]: it cannot
    overflow. *)
Theorem selector_matches_prescaler (t : Float32.float) :
  In (Prescaler t) prescalers /\
  PrescalerCode t = selector (Prescaler t) /\
  0 <= ReloadValue t <= 65535 /\
  0 <= Prescaler t * ReloadValue t < 2 ^ 24.
Proof.
  assert (Hr : 0 <= ReloadValue t <= 65535).
  { unfold ReloadValue, to_uint16.
    pose proof (Z.mod_pos_bound
                  (Float32.to_uint32 (counts t (Prescaler t))) (2 ^ 16)
                  ltac:(reflexivity)) as H.
    change (2 ^ 16) with 65536 in *. lia. }
  pose proof (Prescaler_range t) as Hp.
  repeat split; try lia; try apply Prescaler_in.
  - unfold Prescaler, PrescalerCode. rewrite select_prescaler_eq.
    repeat match goal with
           | |- context [if bound_holds ?t ?q then _ else _] =>
               destruct (bound_holds t q)
           end; reflexivity.
  - change (2 ^ 24) with 16777216. nia.
Qed.

(** ** The timeout that [Configure] prints *)

Lemma iter_xO (p d : positive) : Zpos (Pos.iter xO p d) = Zpos p * 2 ^ Zpos d.
Proof.
  induction d as [|d IH] using Pos.peano_ind.
  - cbn [Pos.iter]. change (2 ^ 1) with 2. lia.
  - rewrite Pos.iter_succ, Pos2Z.inj_xO, IH, Pos2Z.inj_succ, Z.pow_succ_r by lia.
    ring.
Qed.

(** A mantissa that is already on its grid is not rounded. *)
Lemma binary_round_aux_noshift (sx : bool) (M : positive) (E : Z) :
  rexp (Zpos M) E <= E -> E <= 104 ->
  binary_round_aux Float32.prec Float32.emax sx (Zpos M) E loc_Exact
  = S754_finite sx M E.
Proof.
  intros Hs HE.
  assert (Hshr : shr_fexp Float32.prec Float32.emax (Zpos M) E loc_Exact
                 = ({| shr_m := Zpos M; shr_r := false; shr_s := false |}, E)).
  { unfold shr_fexp.
    change (fexp Float32.prec Float32.emax (Zdigits2 (Zpos M) + E))
      with (rexp (Zpos M) E).
    cbn [shr_record_of_loc].
    destruct (rexp (Zpos M) E - E) as [|q|q] eqn:Hq; try lia; reflexivity. }
  unfold binary_round_aux. rewrite Hshr.
  cbn [shr_m loc_of_shr_record round_nearest_even]. rewrite Hshr.
  cbn [shr_m].
  destruct (Z.leb_spec E (Float32.emax - Float32.prec)) as [_|Hbig];
    [reflexivity|].
  unfold Float32.emax, Float32.prec in Hbig. lia.
Qed.

(** The conversion of an [int] in [1, 2^24) to [float] is exact: a 24-bit
    mantissa at a negative or zero exponent. *)
Lemma of_int_exact (n : Z) :
  0 < n < 2 ^ 24 ->
  exists (m1 : positive) (e1 : Z),
    Float32.of_int n = S754_finite false m1 e1 /\
    Zpos m1 = n * 2 ^ (- e1) /\ -23 <= e1 <= 0 /\
    2 ^ 23 <= Zpos m1 < 2 ^ 24.
Proof.
  intros Hn. destruct n as [|p|p]; try lia.
  pose proof (digits2_pos_bounds p) as Hd.
  set (d := Zpos (digits2_pos p)) in *.
  assert (Hd24 : 1 <= d <= 24).
  { split; [unfold d; lia|].
    apply (Zdigits2_le (Zpos p)); lia. }
  unfold Float32.of_int, binary_normalize, binary_round.
  assert (Hf : fexp Float32.prec Float32.emax (Zpos (digits2_pos p) + 0) = d - 24).
  { unfold fexp, emin, Float32.prec, Float32.emax. fold d. lia. }
  rewrite Hf.
  assert (Hal : exists mz, shl_align p 0 (d - 24) = (mz, d - 24) /\
                           Zpos mz = Zpos p * 2 ^ (24 - d)).
  { unfold shl_align. destruct (d - 24 - 0) as [|q|q] eqn:Hq; try lia.
    - exists p. replace (d - 24) with 0 by lia.
      replace (24 - d) with 0 by lia. split; [reflexivity|]. simpl. lia.
    - exists (Pos.iter xO p q). split; [reflexivity|].
      rewrite iter_xO. f_equal. f_equal. lia. }
  destruct Hal as (mz & -> & Hmz).
  assert (Hpow : 2 ^ 24 = 2 ^ d * 2 ^ (24 - d)).
  { rewrite <- Z.pow_add_r by lia. f_equal. lia. }
  assert (Hpow' : 2 ^ 23 = 2 ^ (d - 1) * 2 ^ (24 - d)).
  { rewrite <- Z.pow_add_r by lia. f_equal. lia. }
  assert (Hp2 : 0 < 2 ^ (24 - d)) by (apply Z.pow_pos_nonneg; lia).
  assert (Hb : 2 ^ 23 <= Zpos mz < 2 ^ 24) by (rewrite Hmz, Hpow, Hpow'; nia).
  exists mz, (d - 24).
  rewrite binary_round_aux_noshift.
  - repeat split; try lia. rewrite Hmz. f_equal. f_equal. lia.
  - assert (Zdigits2 (Zpos mz) <= 24) by (apply Zdigits2_le; lia).
    unfold rexp, fexp, emin, Float32.prec, Float32.emax. lia.
  - lia.
Qed.

(** The second stage of [binary_round_aux], on a rounded mantissa. *)
Lemma round_finish_stage (sx : bool) (m e : Z) :
  0 <= m <= 2 ^ 24 -> -149 <= e ->
  (let '(mrs, e') := shr_fexp Float32.prec Float32.emax m e loc_Exact in
   match shr_m mrs with
   | Z0 => S754_zero sx
   | Zpos p =>
       if e' <=? Float32.emax - Float32.prec
       then S754_finite sx p e' else S754_infinity sx
   | Zneg _ => S754_nan
   end) = round_finish sx m e.
Proof.
  intros Hm He. unfold round_finish, shr_fexp.
  destruct (Z.eqb_spec m (2 ^ 24)) as [E24|N24].
  - rewrite E24. cbn [shr_record_of_loc].
    change (Zdigits2 (2 ^ 24)) with 25.
    assert (Hf : fexp Float32.prec Float32.emax (25 + e) - e = 1).
    { unfold fexp, emin, Float32.prec, Float32.emax. lia. }
    rewrite Hf. cbn [shr iter_pos].
    change (shr_1 {| shr_m := 2 ^ 24; shr_r := false; shr_s := false |})
      with {| shr_m := 8388608; shr_r := false; shr_s := false |}.
    cbn [shr_m]. reflexivity.
  - assert (Hf : fexp Float32.prec Float32.emax (Zdigits2 m + e) - e <= 0).
    { assert (Zdigits2 m <= 24).
      { destruct (Z.eq_dec m 0) as [->|]; [simpl; lia|].
        apply Zdigits2_le; lia. }
      unfold fexp, emin, Float32.prec, Float32.emax. lia. }
    cbn [shr_record_of_loc].
    destruct (fexp Float32.prec Float32.emax (Zdigits2 m + e) - e) as [|q|q] eqn:Hq;
      try lia; cbn [shr shr_m]; destruct m; try reflexivity; lia.
Qed.

Lemma record_of_loc (q : Z) (l : location) :
  shr_m (shr_record_of_loc q l) = q /\
  loc_of_shr_record (shr_record_of_loc q l) = l.
Proof. destruct l as [|[| |]]; split; reflexivity. Qed.

(** The quotient of a 24-bit mantissa at exponent [e1] by 45000.0 (mantissa
    11520000 at exponent -8) is a normal float within relative distance
    [2^-24] of the exact quotient. *)
Lemma div_LsiFreq (m1 : positive) (e1 : Z) :
  2 ^ 23 <= Zpos m1 < 2 ^ 24 -> -23 <= e1 <= 0 ->
  exists (M : positive) (J : Z),
    Float32.div (S754_finite false m1 e1) (S754_finite false 11520000 (-8))
    = S754_finite false M (e1 - 16 + J) /\
    0 <= J <= 2 /\ 2 ^ 23 <= Zpos M < 2 ^ 24 /\
    - (Zpos m1 * 2 ^ 24)
    <= 2 ^ 24 * (Zpos M * 11520000 * 2 ^ J - Zpos m1 * 2 ^ 24)
    <= Zpos m1 * 2 ^ 24.
Proof.
  intros Hm He.
  assert (Hd1 : Zdigits2 (Zpos m1) = 24).
  { apply Z.le_antisymm; [apply Zdigits2_le; lia|].
    apply (Zdigits2_ge (Zpos m1) 23); lia. }
  unfold Float32.div, SFdiv, SFdiv_core_binary.
  rewrite Hd1. change (Zdigits2 11520000) with 24.
  assert (He' : Z.min (fexp Float32.prec Float32.emax (24 + e1 - (24 + -8))) (e1 - -8)
                = e1 - 16).
  { unfold fexp, emin, Float32.prec, Float32.emax. lia. }
  rewrite He'. replace (e1 - -8 - (e1 - 16)) with 24 by lia.
  cbv iota. rewrite Z.shiftl_mul_pow2 by lia.
  set (N := Zpos m1 * 2 ^ 24) in *.
  pose proof (Z_div_mod N 11520000 ltac:(reflexivity)) as Hqr.
  destruct (Z.div_eucl N 11520000) as [q r].
  destruct Hqr as [HN Hr].
  change (2 ^ 24) with 16777216 in *. change (2 ^ 23) with 8388608 in *.
  assert (Hq : 8388608 < q < 33554432) by (unfold N in HN; lia).
  set (lz := new_location 11520000 r).
  assert (Hlz : lz = if r =? 0 then loc_Exact
                     else loc_Inexact (2 * r ?= 11520000)).
  { reflexivity. }
  unfold binary_round_aux. change (xorb false false) with false.
  destruct (record_of_loc q lz) as [Hrm Hrl].
  destruct (Z_lt_ge_dec q 16777216) as [Hsmall|Hbig].
  - (* the quotient has 24 bits: it is rounded as it is *)
    assert (Hdq : Zdigits2 q = 24).
    { apply Z.le_antisymm; [apply Zdigits2_le; lia|].
      apply (Zdigits2_ge q 23); lia. }
    assert (Hshr : shr_fexp Float32.prec Float32.emax q (e1 - 16) lz
                   = (shr_record_of_loc q lz, e1 - 16)).
    { unfold shr_fexp. rewrite Hdq.
      replace (fexp Float32.prec Float32.emax (24 + (e1 - 16)) - (e1 - 16)) with 0
        by (unfold fexp, emin, Float32.prec, Float32.emax; lia).
      reflexivity. }
    rewrite Hshr, Hrm, Hrl.
    set (m' := round_nearest_even q lz).
    assert (Hm' : 8388608 <= m' <= 16777216 /\
                  - 5760000 <= m' * 11520000 - N <= 5760000).
    { unfold m'. rewrite Hlz.
      destruct (Z.eqb_spec r 0) as [Hr0|Hr0]; cbn [round_nearest_even]; [lia|].
      destruct (Z.compare_spec (2 * r) 11520000); cbn [round_nearest_even];
        try destruct (Z.even q); lia. }
    rewrite (round_finish_stage false m' (e1 - 16)) by lia.
    unfold round_finish. change (2 ^ 24) with 16777216.
    destruct (Z.eqb_spec m' 16777216) as [E24|N24].
    + destruct (Z.leb_spec (e1 - 16 + 1) 104) as [_|Hbad]; [|lia].
      exists 8388608%positive, 1.
      change (2 ^ 1) with 2. repeat split; try lia.
    + destruct m' as [|p|p] eqn:Hp; try lia.
      destruct (Z.leb_spec (e1 - 16) 104) as [_|Hbad]; [|lia].
      exists p, 0. rewrite Z.add_0_r.
      change (2 ^ 0) with 1. repeat split; try lia.
  - (* the quotient has 25 bits: one bit is shifted out before rounding *)
    assert (Hdq : Zdigits2 q = 25).
    { apply Z.le_antisymm; [apply Zdigits2_le; lia|].
      apply (Zdigits2_ge q 24); lia. }
    assert (Hshr : shr_fexp Float32.prec Float32.emax q (e1 - 16) lz
                   = (shr_1 (shr_record_of_loc q lz), e1 - 16 + 1)).
    { unfold shr_fexp. rewrite Hdq.
      replace (fexp Float32.prec Float32.emax (25 + (e1 - 16)) - (e1 - 16)) with 1
        by (unfold fexp, emin, Float32.prec, Float32.emax; lia).
      reflexivity. }
    rewrite Hshr.
    set (x := shr_1 (shr_record_of_loc q lz)).
    set (m' := round_nearest_even (shr_m x) (loc_of_shr_record x)).
    pose proof (Z.div_mod q 2 ltac:(lia)) as Hq2.
    pose proof (Z.mod_pos_bound q 2 ltac:(lia)) as Hq2b.
    assert (Hodd : Z.odd q = negb (q mod 2 =? 0)).
    { rewrite Zodd_mod. destruct (Z.eqb_spec (q mod 2) 1);
        destruct (Z.eqb_spec (q mod 2) 0); try reflexivity; lia. }
    assert (Hm' : 8388608 <= m' <= 16777216 /\
                  - 11520000 <= m' * 23040000 - N <= 11520000).
    { unfold m', x. rewrite Hlz.
      destruct (Z.eqb_spec r 0) as [Hr0|Hr0];
        [|destruct (Z.compare_spec (2 * r) 11520000)];
        cbn [shr_record_of_loc]; rewrite shr_1_nonneg by lia;
        cbn [shr_m shr_r shr_s]; rewrite Hodd;
        destruct (Z.eqb_spec (q mod 2) 0) as [Hev|Hev];
        cbn [negb orb loc_of_shr_record round_nearest_even];
        try destruct (Z.even (q / 2)); lia. }
    rewrite (round_finish_stage false m' (e1 - 16 + 1)) by lia.
    unfold round_finish. change (2 ^ 24) with 16777216.
    destruct (Z.eqb_spec m' 16777216) as [E24|N24].
    + destruct (Z.leb_spec (e1 - 16 + 1 + 1) 104) as [_|Hbad]; [|lia].
      exists 8388608%positive, 2.
      replace (e1 - 16 + 2) with (e1 - 16 + 1 + 1) by lia.
      change (2 ^ 2) with 4. repeat split; try lia.
    + destruct m' as [|p|p] eqn:Hp; try lia.
      destruct (Z.leb_spec (e1 - 16 + 1) 104) as [_|Hbad]; [|lia].
      exists p, 1.
      change (2 ^ 1) with 2. repeat split; try lia.
Qed.

Lemma product_range (t : Float32.float) :
  0 <= Prescaler t * ReloadValue t < 2 ^ 24.
Proof.
  assert (Hr : 0 <= ReloadValue t <= 65535).
  { unfold ReloadValue, to_uint16.
    pose proof (Z.mod_pos_bound
                  (Float32.to_uint32 (counts t (Prescaler t))) (2 ^ 16)
                  ltac:(reflexivity)) as H.
    change (2 ^ 16) with 65536 in *. lia. }
  pose proof (Prescaler_range t) as Hp.
  change (2 ^ 24) with 16777216. nia.
Qed.

(** X10: for every timeout, the timeout that [Configure] prints,
    [((float)(Prescaler * ReloadValue)) / LsiFreq], is a valid float that is
    zero or positive and finite, never NaN and never infinite, and it is
    within the relative distance [2^-24] of the exact quotient
    [(Prescaler * ReloadValue) / LsiFreq]: the conversion of the product to
    [float] is exact and the division is rounded once. *)
Theorem Calculated_timeout_accurate (t : Float32.float) :
  Float32.valid (Calculated_timeout t) = true /\
  finite_timeout (Calculated_timeout t) = true /\
  Float32.leb Float32.zero (Calculated_timeout t) = true /\
  (Qabs (Float32.to_Q (Calculated_timeout t) - achieved t) * inject_Z (2 ^ 24)
   <= achieved t)%Q.
Proof.
  pose proof (product_range t) as Hn.
  unfold Calculated_timeout, achieved.
  set (n := Prescaler t * ReloadValue t) in *.
  change (Float32.of_int LsiFreq) with (S754_finite false 11520000 (-8)).
  change LsiFreq with 45000.
  destruct (Z.eq_dec n 0) as [->|Hn0].
  - repeat split; try reflexivity. vm_compute. discriminate.
  - destruct (of_int_exact n ltac:(lia)) as (m1 & e1 & -> & Hm1 & He1 & Hb1).
    destruct (div_LsiFreq m1 e1 Hb1 He1) as (M & J & -> & HJ & HM & Hkey).
    assert (HdM : Zpos (digits2_pos M) = 24).
    { change (Zpos (digits2_pos M)) with (Zdigits2 (Zpos M)).
      apply Z.le_antisymm; [apply Zdigits2_le; lia|].
      apply (Zdigits2_ge (Zpos M) 23); lia. }
    repeat split.
    + unfold Float32.valid, valid_binary, bounded, canonical_mantissa.
      rewrite HdM. apply andb_true_intro. split.
      * apply Z.eqb_eq. unfold fexp, emin, Float32.prec, Float32.emax. lia.
      * apply Z.leb_le. unfold Float32.prec, Float32.emax. lia.
    + unfold Float32.to_Q.
      destruct (Z.leb_spec 0 (e1 - 16 + J)) as [Hbad|_]; [lia|].
      set (X := 2 ^ (- e1)) in *.
      assert (HX : 0 < X) by (apply Z.pow_pos_nonneg; lia).
      assert (HP : Zpos (Z.to_pos (2 ^ (- (e1 - 16 + J)))) = 2 ^ (16 - J) * X).
      { rewrite Z2Pos.id by (apply Z.pow_pos_nonneg; lia).
        unfold X. rewrite <- Z.pow_add_r by lia. f_equal. lia. }
      unfold Qdiv, Qinv, inject_Z. cbn [Qnum Qden].
      unfold Qle, Qabs, Qminus, Qplus, Qopp, Qmult.
      cbn [Qnum Qden]. rewrite ?Pos2Z.inj_mul, HP.
      change (2 ^ 24) with 16777216 in *. change (2 ^ 23) with 8388608 in *.
      rewrite Hm1 in Hkey.
      set (Y := n * X) in *.
      assert (HY : n * (2 ^ (16 - J) * X) = 2 ^ (16 - J) * Y) by (unfold Y; ring).
      assert (HJ3 : J = 0 \/ J = 1 \/ J = 2) by lia.
      destruct HJ3 as [ -> | [ -> | -> ] ];
        [change (2 ^ (16 - 0)) with 65536 in *; change (2 ^ 0) with 1 in *
        |change (2 ^ (16 - 1)) with 32768 in *; change (2 ^ 1) with 2 in *
        |change (2 ^ (16 - 2)) with 16384 in *; change (2 ^ 2) with 4 in *];
        lia.
Qed.

(** ** The reload value beyond 16 bits *)

(** The conversion of a rounded positive value on a grid not coarser than 1:
    no saturation, and the assignment to [uint16_t] keeps the low 16 bits. *)
Lemma cast_round_finish_wrap (m' e' : Z) :
  0 < m' <= 2 ^ 24 -> e' <= 0 ->
  to_uint16 (Float32.to_uint32 (round_finish false m' e'))
  = (m' / 2 ^ (- e')) mod 2 ^ 16.
Proof.
  intros Hm He.
  assert (Hpe : 0 < 2 ^ (- e')) by (apply Z.pow_pos_nonneg; lia).
  assert (Hv : 0 <= m' / 2 ^ (- e') <= 2 ^ 24).
  { split; [apply Z.div_pos; lia|].
    apply Z.le_trans with (m' / 1); [|rewrite Z.div_1_r; lia].
    apply Z.div_le_compat_l; lia. }
  assert (Hcast : Float32.to_uint32 (round_finish false m' e')
                  = Z.min (m' / 2 ^ (- e')) 0xFFFFFFFF).
  { unfold round_finish.
    destruct (Z.eqb_spec m' (2 ^ 24)) as [E24|N24].
    - destruct (Z.leb_spec (e' + 1) 104) as [_|Hbig]; [|lia].
      unfold Float32.to_uint32, Float32.trunc_pos. rewrite E24.
      destruct (Z.eq_dec e' 0) as [->|Hne]; [reflexivity|].
      rewrite Z.shiftl_div_pow2 by lia.
      replace (- e') with (1 + - (e' + 1)) by lia.
      rewrite Z.pow_add_r by lia.
      change (2 ^ 24) with (2 ^ 1 * 8388608).
      rewrite Z.div_mul_cancel_l; lia.
    - destruct m' as [|p|p]; try lia.
      destruct (Z.leb_spec e' 104) as [_|Hbig]; [|lia].
      unfold Float32.to_uint32, Float32.trunc_pos.
      rewrite Z.shiftl_div_pow2 by lia. reflexivity. }
  rewrite Hcast. unfold to_uint16.
  rewrite Z.min_l; [reflexivity|].
  change (2 ^ 24) with 16777216 in Hv. change 0xFFFFFFFF with 4294967295. lia.
Qed.

Lemma counts_wrap_generic (m : positive) (e k : Z) (mk : positive) (ek : Z) :
  Float32.valid (S754_finite false m e) = true ->
  ek < 0 -> 0 < k -> Zpos mk = k * 2 ^ (- ek) ->
  rexp (Zpos m * k) e <= 0 ->
  to_uint16 (Float32.to_uint32
               (Float32.mul (S754_finite false m e) (S754_finite false mk ek)))
  = rfloor (Zpos m * k) e mod 2 ^ 16.
Proof.
  intros Hv Hek Hk Hmk H0.
  destruct (valid_mantissa m e Hv) as (Hemin & _ & _).
  destruct (mul_const_spec false m e mk ek k Hv Hek Hk Hmk) as [Hge Hmul].
  rewrite Hmul. unfold rfloor.
  apply cast_round_finish_wrap; try assumption.
  split; [apply rmant_pos; nia|apply rne_rexp_bound; nia].
Qed.

Lemma counts_wrap (m : positive) (e p : Z) :
  let t := S754_finite false m e in
  let k := Z.quot LsiFreq p in
  Float32.valid t = true -> In p prescalers ->
  rexp (Zpos m * k) e <= 0 ->
  to_uint16 (Float32.to_uint32 (counts t p)) = rfloor (Zpos m * k) e mod 2 ^ 16.
Proof.
  intros t k Hv Hin H0. subst t k.
  unfold counts, prescalers in *. simpl in Hin.
  repeat (destruct Hin as [<-|Hin]); try contradiction;
    repeat eval_const;
    match goal with
    | |- context [Float32.mul _ (S754_finite false ?mk ?ek)] =>
        match goal with
        | |- context [Z.quot LsiFreq ?p] =>
            apply (counts_wrap_generic m e (Z.quot LsiFreq p) mk ek);
            first [exact Hv | exact H0 | reflexivity]
        end
    end.
Qed.

(** X11: for every valid positive finite timeout whose exact count for the
    selected prescaler is below [2^24], the reload value is the low 16 bits
    of an integer between the floor and the ceiling of the exact count: a
    count of 65536 or more silently wraps around in the [uint16_t]. *)
Theorem reload_wraps_around (t : Float32.float) :
  Float32.valid t = true -> positive_timeout t = true -> finite_timeout t = true ->
  (exact_counts t (Prescaler t) <= inject_Z (2 ^ 24 - 1))%Q ->
  exists c : Z,
    Qfloor (exact_counts t (Prescaler t)) <= c
    <= Qceiling (exact_counts t (Prescaler t)) /\
    ReloadValue t = c mod 2 ^ 16.
Proof.
  intros Hv Hp Hf Hhi.
  destruct (positive_finite t Hp Hf) as (m & e & ->).
  pose proof (Prescaler_in (S754_finite false m e)) as Hin.
  rewrite ReloadValue_eq.
  set (p := Prescaler (S754_finite false m e)) in *.
  apply exact_counts_le in Hhi.
  destruct (valid_mantissa m e Hv) as (Hemin & Hm24 & Hm23).
  destruct (prescaler_quot p Hin) as (_ & Hk & _ & _).
  pose proof (quot_ge_175 p Hin) as Hk175.
  set (k := Z.quot LsiFreq p) in *.
  change (2 ^ 24 - 1) with 16777215 in Hhi.
  change (2 ^ 24) with 16777216 in Hm24. change (2 ^ 23) with 8388608 in Hm23.
  assert (He : e < 0).
  { destruct (Z_lt_ge_dec e 0) as [|Hge]; [assumption|exfalso].
    rewrite Z.max_l, Z.max_r in Hhi by lia. change (2 ^ 0) with 1 in Hhi.
    specialize (Hm23 ltac:(lia)).
    assert (Hpe : 0 < 2 ^ e) by (apply Z.pow_pos_nonneg; lia).
    nia. }
  rewrite Z.max_r, Z.max_l in Hhi by lia. change (2 ^ 0) with 1 in Hhi.
  set (a := Zpos m * k) in *.
  assert (Ha : 0 < a) by (unfold a; nia).
  assert (Hge : e <= rexp a e).
  { destruct (valid_finite _ _ _ Hv) as [Heq _]. rewrite Heq at 1.
    apply rexp_mono; unfold a; nia. }
  assert (Hpn : 0 < 2 ^ (- e)) by (apply Z.pow_pos_nonneg; lia).
  assert (H0 : rexp a e <= 0).
  { apply (rexp_small _ _ 24); lia. }
  exists (rfloor a e). split; [|apply (counts_wrap m e p Hv Hin H0)].
  assert (Hd : Zpos (Z.to_pos (2 ^ (- e))) = 2 ^ (- e)) by (apply Z2Pos.id; lia).
  pose proof (rfloor_lower a e Ha Hge H0) as Hlo.
  pose proof (rfloor_upper a e Ha Hge H0) as Hup.
  unfold Qceiling, Qfloor, exact_counts, Float32.to_Q.
  destruct (Z.leb_spec 0 e) as [He0|_]; [lia|].
  unfold Qopp, Qmult, inject_Z. cbn [Qnum Qden].
  rewrite Pos2Z.inj_mul, Hd, Z.mul_1_r. fold k. fold a.
  split; [exact Hlo|].
  pose proof (Z.div_mod (- a) (2 ^ (- e)) ltac:(lia)).
  pose proof (Z.mod_pos_bound (- a) (2 ^ (- e)) Hpn). nia.
Qed.

Lemma reload_wraps_around_witness :
  exists c : Z,
    Qfloor (exact_counts timeout_400 (Prescaler timeout_400)) <= c
    <= Qceiling (exact_counts timeout_400 (Prescaler timeout_400)) /\
    ReloadValue timeout_400 = c mod 2 ^ 16.
Proof.
  apply (reload_wraps_around timeout_400); try reflexivity.
  vm_compute. discriminate.
Defined.

(** ** The selected prescaler against the exact counts *)

(** Rounding to nearest even stays below a half-way point that [a] is
    below, and reaches an even integer from the half-way point on. *)
Lemma rne_le_half (a j N : Z) :
  0 <= j -> 2 * a < (2 * N + 1) * 2 ^ j -> rne a j <= N.
Proof.
  intros Hj H.
  assert (Hp : 0 < 2 ^ j) by (apply Z.pow_pos_nonneg; lia).
  pose proof (Z.div_mod a (2 ^ j) ltac:(lia)) as Hd.
  pose proof (Z.mod_pos_bound a (2 ^ j) Hp) as Hm.
  unfold rne.
  destruct (Z.compare_spec (2 * (a mod 2 ^ j)) (2 ^ j));
    [destruct (Z.even (a / 2 ^ j))| |]; nia.
Qed.

Lemma rne_ge_half (a j N : Z) :
  0 <= j -> Z.even N = true -> (2 * N - 1) * 2 ^ j <= 2 * a -> N <= rne a j.
Proof.
  intros Hj Hev H.
  assert (Hp : 0 < 2 ^ j) by (apply Z.pow_pos_nonneg; lia).
  pose proof (Z.div_mod a (2 ^ j) ltac:(lia)) as Hd.
  pose proof (Z.mod_pos_bound a (2 ^ j) Hp) as Hm.
  assert (Hq : N - 1 <= a / 2 ^ j) by nia.
  unfold rne.
  destruct (Z.compare_spec (2 * (a mod 2 ^ j)) (2 ^ j)) as [E|L|G].
  - destruct (Z.even (a / 2 ^ j)) eqn:Hq2; [|lia].
    destruct (Z.eq_dec (a / 2 ^ j) (N - 1)) as [E1|]; [|lia].
    rewrite E1 in Hq2. replace (N - 1) with (Z.pred N) in Hq2 by lia.
    rewrite Z.even_pred in Hq2. rewrite <- Z.negb_even in Hq2.
    rewrite Hev in Hq2. discriminate.
  - nia.
  - nia.
Qed.

(** The integer part of the rounded value is below [c] exactly when the
    value is below [c] minus half the spacing [2^(1-h)] of the binade of
    [c]. *)
Lemma rfloor_lt_exact (a e c h : Z) :
  0 < a -> e < 0 -> e <= rexp a e -> 2 <= h <= 24 ->
  2 ^ (24 - h) < c < 2 ^ (25 - h) ->
  (rexp a e <= 0 /\ rfloor a e < c <-> 2 ^ h * a < (2 ^ h * c - 1) * 2 ^ (- e)).
Proof.
  intros Ha He Hge Hh Hc.
  destruct (Zdigits2_bounds a Ha) as [Hlo Hhi].
  pose proof (rexp_cases a e) as Hcases.
  pose proof (rexp_ge_emin a e) as Hemin.
  pose proof (rexp_ge_digits a e) as Hdig.
  pose proof (Zdigits2_nonneg a) as Hd0.
  assert (Hpn : 0 < 2 ^ (- e)) by (apply Z.pow_pos_nonneg; lia).
  assert (Hph : 0 < 2 ^ h) by (apply Z.pow_pos_nonneg; lia).
  assert (Hsum : 2 ^ h * 2 ^ (24 - h) = 2 ^ 24).
  { rewrite <- Z.pow_add_r by lia. f_equal. lia. }
  assert (Hsum' : 2 ^ h * 2 ^ (25 - h) = 2 ^ 25).
  { rewrite <- Z.pow_add_r by lia. f_equal. lia. }
  destruct (Z_le_gt_dec (Zdigits2 a + e) (24 - h)) as [HA|HA].
  - (* the binades below that of [c] *)
    assert (Hx : a < 2 ^ (24 - h) * 2 ^ (- e)).
    { rewrite <- Z.pow_add_r by lia.
      apply Z.lt_le_trans with (1 := Hhi). apply Z.pow_le_mono_r; lia. }
    split; [intros _|intros _].
    { assert (H1 : 2 ^ h * a < 2 ^ h * (2 ^ (24 - h) * 2 ^ (- e)))
        by (apply Z.mul_lt_mono_pos_l; lia).
      assert (H2 : 2 ^ h * (2 ^ (24 - h) + 1) - 1 <= 2 ^ h * c - 1) by nia.
      assert (H3 : (2 ^ h * (2 ^ (24 - h) + 1) - 1) * 2 ^ (- e)
                   <= (2 ^ h * c - 1) * 2 ^ (- e))
        by (apply Z.mul_le_mono_nonneg_r; lia).
      nia. }
    assert (He' : rexp a e <= - h) by lia.
    split; [lia|].
    unfold rfloor.
    pose proof (rne_rexp_bound a e Ha Hge) as [_ Hm]. fold (rmant a e) in Hm.
    assert (Hp : 2 ^ h <= 2 ^ (- rexp a e)) by (apply Z.pow_le_mono_r; lia).
    assert (rmant a e / 2 ^ (- rexp a e) <= 2 ^ 24 / 2 ^ h).
    { apply Z.le_trans with (2 ^ 24 / 2 ^ (- rexp a e)).
      - apply Z.div_le_mono; lia.
      - apply Z.div_le_compat_l; lia. }
    assert (2 ^ 24 / 2 ^ h = 2 ^ (24 - h)).
    { rewrite Z.pow_sub_r by lia. reflexivity. }
    lia.
  - destruct (Z.eq_dec (Zdigits2 a + e) (25 - h)) as [HB|HC].
    + (* the binade of [c] *)
      assert (He' : rexp a e = 1 - h) by lia.
      unfold rfloor, rmant. rewrite He'.
      replace (- (1 - h)) with (h - 1) by lia.
      set (j := 1 - h - e).
      assert (Hj : 0 <= j) by (unfold j; lia).
      assert (Hpj : 0 < 2 ^ j) by (apply Z.pow_pos_nonneg; lia).
      assert (Hp1 : 0 < 2 ^ (h - 1)) by (apply Z.pow_pos_nonneg; lia).
      assert (Hh2 : 2 ^ h = 2 * 2 ^ (h - 1)).
      { replace h with (1 + (h - 1)) at 1 by lia.
        rewrite Z.pow_add_r by lia. reflexivity. }
      assert (Hsplit : 2 ^ (- e) = 2 ^ (h - 1) * 2 ^ j).
      { rewrite <- Z.pow_add_r by lia. f_equal. unfold j. lia. }
      assert (Hev : Z.even (c * 2 ^ (h - 1)) = true).
      { replace (h - 1) with (1 + (h - 2)) by lia.
        rewrite Z.pow_add_r by lia. change (2 ^ 1) with 2.
        rewrite Z.even_mul, Z.even_mul. simpl. now rewrite orb_true_r. }
      split.
      * intros [_ Hlt].
        destruct (Z_lt_ge_dec (2 ^ h * a) ((2 ^ h * c - 1) * 2 ^ (- e)))
          as [|Hnot]; [assumption|exfalso].
        assert (Hm : c * 2 ^ (h - 1) <= rne a j).
        { apply rne_ge_half; try assumption.
          rewrite Hsplit, Hh2 in Hnot. nia. }
        assert (c <= rne a j / 2 ^ (h - 1))
          by (apply Z.div_le_lower_bound; lia).
        lia.
      * intros HT. split; [lia|].
        apply Z.div_lt_upper_bound; [lia|].
        assert (Hm : rne a j <= c * 2 ^ (h - 1) - 1).
        { apply rne_le_half; try assumption.
          rewrite Hsplit, Hh2 in HT. nia. }
        lia.
    + (* the binades above that of [c] *)
      assert (Hx : 2 ^ (25 - h) * 2 ^ (- e) <= a).
      { rewrite <- Z.pow_add_r by lia.
        apply Z.le_trans with (2 := Hlo). apply Z.pow_le_mono_r; lia. }
      split.
      * intros [H0 Hlt]. exfalso.
        pose proof (rfloor_lower a e Ha Hge H0) as Hfl.
        assert (c <= a / 2 ^ (- e)) by (apply Z.div_le_lower_bound; nia).
        lia.
      * intros HT. exfalso.
        assert (H1 : 2 ^ h * (2 ^ (25 - h) * 2 ^ (- e)) <= 2 ^ h * a)
          by (apply Z.mul_le_mono_nonneg_l; lia).
        assert (H2 : (2 ^ h * c - 1) * 2 ^ (- e)
                     <= (2 ^ h * 2 ^ (25 - h)) * 2 ^ (- e))
          by (apply Z.mul_le_mono_nonneg_r; nia).
        lia.
Qed.

(** The test of [Configure] for the prescaler [p], on the exact count. *)
Lemma bound_holds_exact_Z (m : positive) (e p : Z) :
  let h := if p =? 4 then 14 else 13 in
  Float32.valid (S754_finite false m e) = true -> In p prescalers ->
  (bound_holds (S754_finite false m e) p = true <->
   2 ^ h * (Zpos m * Z.quot LsiFreq p) * 2 ^ Z.max e 0
   < (2 ^ h * bound p - 1) * 2 ^ Z.max (- e) 0).
Proof.
  intros h Hv Hin.
  destruct (valid_mantissa m e Hv) as (Hemin & Hm24 & Hm23).
  destruct (prescaler_quot p Hin) as (_ & Hk & _ & _).
  pose proof (quot_ge_175 p Hin) as Hk175.
  assert (Hhc : 2 <= h <= 24 /\ 2 ^ (24 - h) < bound p < 2 ^ (25 - h) /\
                2 ^ h * bound p <= 2 ^ 26).
  { unfold h, bound. destruct (p =? 4); vm_compute; intuition discriminate. }
  destruct Hhc as (Hh & Hc & Hc26).
  set (k := Z.quot LsiFreq p) in *. set (c := bound p) in *.
  clearbody h.
  assert (Hph : 0 < 2 ^ h) by (apply Z.pow_pos_nonneg; lia).
  destruct (Z_lt_ge_dec e 0) as [He|He].
  - rewrite (Z.max_r e 0), (Z.max_l (- e) 0) by lia. change (2 ^ 0) with 1.
    rewrite Z.mul_1_r.
    set (a := Zpos m * k).
    assert (Ha : 0 < a) by (unfold a; nia).
    assert (Hge : e <= rexp a e).
    { destruct (valid_finite _ _ _ Hv) as [Heq _]. rewrite Heq at 1.
      apply rexp_mono; unfold a; nia. }
    rewrite <- (rfloor_lt_exact a e c h Ha He Hge Hh Hc).
    exact (bound_holds_iff m e p Hv Hin).
  - rewrite (Z.max_l e 0), (Z.max_r (- e) 0) by lia. change (2 ^ 0) with 1.
    split.
    + intros Hb.
      destruct (bound_holds_lt m e p Hv Hin Hb) as [Hneg _]. lia.
    + intros HT. exfalso.
      specialize (Hm23 ltac:(lia)). change (2 ^ 23) with 8388608 in Hm23.
      change (2 ^ 26) with 67108864 in Hc26.
      assert (Hp : 0 < 2 ^ e) by (apply Z.pow_pos_nonneg; lia).
      assert (H1 : 8388608 * 175 <= Zpos m * k) by nia.
      assert (H2 : 1 * (8388608 * 175) <= 2 ^ h * (Zpos m * k))
        by (apply Z.mul_le_mono_nonneg; lia).
      assert (H3 : 2 ^ h * (Zpos m * k) * 1 <= 2 ^ h * (Zpos m * k) * 2 ^ e)
        by (apply Z.mul_le_mono_nonneg_l; lia).
      lia.
Qed.

Lemma exact_counts_below (m : positive) (e p C : Z) (D : positive) :
  (exact_counts (S754_finite false m e) p < inject_Z C - (1 # D))%Q <->
  Zpos D * (Zpos m * Z.quot LsiFreq p) * 2 ^ Z.max e 0
  < (Zpos D * C - 1) * 2 ^ Z.max (- e) 0.
Proof.
  unfold exact_counts, Float32.to_Q.
  destruct (Z.leb_spec 0 e) as [He|He].
  - rewrite Z.max_l, Z.max_r by lia. change (2 ^ 0) with 1.
    unfold Qlt, Qminus, Qplus, Qopp, Qmult, inject_Z. cbn [Qnum Qden].
    rewrite ?Pos2Z.inj_mul. lia.
  - rewrite Z.max_r, Z.max_l by lia. change (2 ^ 0) with 1.
    assert (Hd : Zpos (Z.to_pos (2 ^ (- e))) = 2 ^ (- e)).
    { apply Z2Pos.id. apply Z.pow_pos_nonneg; lia. }
    unfold Qlt, Qminus, Qplus, Qopp, Qmult, inject_Z. cbn [Qnum Qden].
    rewrite ?Pos2Z.inj_mul, Hd. lia.
Qed.

Lemma bound_holds_exact (m : positive) (e p : Z) :
  Float32.valid (S754_finite false m e) = true -> In p prescalers ->
  (bound_holds (S754_finite false m e) p = true <->
   (exact_counts (S754_finite false m e) p
    < inject_Z (bound p) - half_ulp_below p)%Q).
Proof.
  intros Hv Hin.
  rewrite (bound_holds_exact_Z m e p Hv Hin).
  unfold half_ulp_below. destruct (p =? 4).
  - rewrite exact_counts_below. reflexivity.
  - rewrite exact_counts_below. reflexivity.
Qed.

Lemma Prescaler_smaller_fail (t : Float32.float) (q : Z) :
  In q prescalers -> q < Prescaler t -> bound_holds t q = false.
Proof.
  intros Hq Hlt.
  destruct (bound_holds t q) eqn:Hb; [exfalso|reflexivity].
  pose proof (Prescaler_le t q Hq Hb). lia.
Qed.

(** C1, as the code has it.  The counts are taken with the integer quotient
    [LsiFreq / p] (11250, 5625, 2812, 1406, 703, 351, 175) and each test is
    made on the product rounded to binary32, so that a bound holds exactly
    when the exact count is below the bound (0x7FF for 4, 0xFF0 for the
    others) minus half a binary32 spacing ([2^-14] for 4, [2^-13] for the
    others).  For every valid positive finite timeout for which the bound
    of at least one prescaler holds in this sense, [Configure] selects the
    smallest prescaler of {4, 8, 16, 32, 64, 128, 256} whose bound holds:
    the bound of the selected prescaler holds and that of every smaller
    one fails. *)
Theorem Configure_selects_smallest_up_to_rounding (t : Float32.float) :
  Float32.valid t = true -> positive_timeout t = true -> finite_timeout t = true ->
  (exists p, In p prescalers /\
             (exact_counts t p < inject_Z (bound p) - half_ulp_below p)%Q) ->
  In (Prescaler t) prescalers /\
  PrescalerCode t = selector (Prescaler t) /\
  (exact_counts t (Prescaler t)
   < inject_Z (bound (Prescaler t)) - half_ulp_below (Prescaler t))%Q /\
  (forall q, In q prescalers -> q < Prescaler t ->
             (inject_Z (bound q) - half_ulp_below q <= exact_counts t q)%Q).
Proof.
  intros Hv Hp Hf (p0 & Hin0 & Hlt0).
  destruct (positive_finite t Hp Hf) as (m & e & ->).
  pose proof (Prescaler_in (S754_finite false m e)) as Hin.
  split; [exact Hin|]. split; [|split].
  - unfold Prescaler, PrescalerCode. rewrite select_prescaler_eq.
    repeat match goal with
           | |- context [if bound_holds ?t ?q then _ else _] =>
               destruct (bound_holds t q)
           end; reflexivity.
  - destruct (Z.eq_dec (Prescaler (S754_finite false m e)) 256) as [E|NE].
    + pose proof Hlt0 as Hb0. apply (bound_holds_exact m e p0 Hv Hin0) in Hb0.
      pose proof (Prescaler_le _ p0 Hin0 Hb0) as Hle.
      assert (Hp0 : p0 = 256).
      { unfold prescalers in Hin0. simpl in Hin0.
        repeat (destruct Hin0 as [<-|Hin0]); try contradiction; lia. }
      rewrite E, <- Hp0. exact Hlt0.
    + apply (bound_holds_exact m e _ Hv Hin).
      exact (Prescaler_tested _ NE).
  - intros q Hq Hlt.
    pose proof (Prescaler_smaller_fail _ q Hq Hlt) as Hb.
    apply Qnot_lt_le. intros Hx.
    apply (bound_holds_exact m e q Hv Hq) in Hx. congruence.
Qed.

Lemma Configure_selects_smallest_up_to_rounding_witness :
  In (Prescaler Float32.one) prescalers /\
  PrescalerCode Float32.one = selector (Prescaler Float32.one) /\
  (exact_counts Float32.one (Prescaler Float32.one)
   < inject_Z (bound (Prescaler Float32.one))
     - half_ulp_below (Prescaler Float32.one))%Q /\
  (forall q, In q prescalers -> q < Prescaler Float32.one ->
             (inject_Z (bound q) - half_ulp_below q
              <= exact_counts Float32.one q)%Q).
Proof.
  apply (Configure_selects_smallest_up_to_rounding Float32.one);
    try reflexivity.
  exists 16. split; [simpl; tauto|reflexivity].
Defined.

(** C1 as stated fails, on either reading of [base_clock_hz / p].  With the
    integer quotient: for 0.725333571434021f the exact count of prescaler 8,
    [t * 5625], is below 0xFF0, so 8 is the smallest prescaler whose bound
    holds, but the binary32 product is 4080.0 and [Configure] selects 16.
    With the quotient 2812.5 of the specification: for 1.45092451572418f the
    count of 16 is at least 0xFF0, so 32 is the smallest prescaler whose
    bound holds, but [Configure] multiplies by 2812 and selects 16. *)
Lemma Configure_not_smallest_admissible :
  Float32.valid below_bound_8 = true /\
  positive_timeout below_bound_8 = true /\
  exact_prescaler below_bound_8 = Some 8 /\
  Prescaler below_bound_8 = 16 /\
  Float32.valid below_bound_16 = true /\
  positive_timeout below_bound_16 = true /\
  spec_prescaler below_bound_16 = Some 32 /\
  Prescaler below_bound_16 = 16.
Proof. repeat split; vm_compute; reflexivity. Qed.

(** ** Monotonicity of the product across prescalers *)

(** Doubling a value that is neither subnormal nor beyond the integers
    doubles its rounding. *)
Lemma rfloor_double (a e : Z) :
  0 < a -> e <= rexp a e -> rexp (a * 2 ^ 1) e <= 0 ->
  2047 <= rfloor (a * 2 ^ 1) e ->
  rfloor a e = rfloor (a * 2 ^ 1) e / 2.
Proof.
  intros Ha Hge H0 Hbig.
  assert (Ha2 : 0 < a * 2 ^ 1) by (change (2 ^ 1) with 2; lia).
  assert (Hr2 : -14 < rexp (a * 2 ^ 1) e).
  { destruct (Z_lt_ge_dec (-14) (rexp (a * 2 ^ 1) e)) as [|Hsmall];
      [assumption|exfalso].
    assert (Hge2 : e <= rexp (a * 2 ^ 1) e).
    { apply Z.le_trans with (1 := Hge). apply rexp_mono; lia. }
    pose proof (rne_rexp_bound (a * 2 ^ 1) e Ha2 Hge2) as [_ Hm].
    fold (rmant (a * 2 ^ 1) e) in Hm.
    unfold rfloor in Hbig.
    assert (Hp : 2 ^ 14 <= 2 ^ (- rexp (a * 2 ^ 1) e))
      by (apply Z.pow_le_mono_r; lia).
    assert (rmant (a * 2 ^ 1) e / 2 ^ (- rexp (a * 2 ^ 1) e) <= 2 ^ 24 / 2 ^ 14).
    { apply Z.le_trans with (2 ^ 24 / 2 ^ (- rexp (a * 2 ^ 1) e)).
      - apply Z.div_le_mono; lia.
      - apply Z.div_le_compat_l; lia. }
    change (2 ^ 24 / 2 ^ 14) with 1024 in *. lia. }
  assert (Hexp : rexp (a * 2 ^ 1) e = rexp a e + 1).
  { unfold rexp in *. rewrite Zdigits2_shift in * by lia.
    unfold fexp, emin, Float32.prec, Float32.emax in *. lia. }
  assert (Hmant : rmant (a * 2 ^ 1) e = rmant a e).
  { unfold rmant. rewrite Hexp.
    replace (rexp a e + 1 - e) with ((rexp a e - e) + 1) by lia.
    apply rne_scale; lia. }
  unfold rfloor. rewrite Hmant, Hexp.
  replace (- rexp a e) with (- (rexp a e + 1) + 1) by lia.
  rewrite Z.pow_add_r by lia. change (2 ^ 1) with 2.
  rewrite <- Z.div_div; [reflexivity| |lia].
  assert (0 < 2 ^ (- (rexp a e + 1))) by (apply Z.pow_pos_nonneg; lia). lia.
Qed.

(** The reload value for [p] when the test of a smaller prescaler [q] has
    failed: where the quotient of [q] is twice that of [p], at least half
    the bound of [q]; in general at least 2033. *)
Lemma rfloor_after_failed_double (m : positive) (e q p : Z) :
  let t := S754_finite false m e in
  Float32.valid t = true -> In q prescalers -> In p prescalers ->
  Z.quot LsiFreq q = Z.quot LsiFreq p * 2 ^ 1 ->
  bound_holds t q = false -> bound_holds t p = true ->
  bound q / 2 <= rfloor (Zpos m * Z.quot LsiFreq p) e.
Proof.
  intros t Hv Hq Hp Hk Hbq Hbp. subst t.
  destruct (counts_spec m e p Hv Hp Hbp) as (Hge & H12 & _ & Hlt).
  destruct (bound_holds_lt m e p Hv Hp Hbp) as [He Hx].
  destruct (prescaler_quot p Hp) as (_ & Hkp & _ & _).
  pose proof (bound_le p Hp) as Hbd. change 0xFF0 with 4080 in Hbd.
  pose proof (bound_le q Hq) as Hbdq. change 0x7FF with 2047 in Hbdq.
  set (a := Zpos m * Z.quot LsiFreq p) in *.
  assert (Ha : 0 < a) by (unfold a; nia).
  assert (Hpn : 0 < 2 ^ (- e)) by (apply Z.pow_pos_nonneg; lia).
  assert (Haq : Zpos m * Z.quot LsiFreq q = a * 2 ^ 1).
  { rewrite Hk. unfold a. ring. }
  assert (H0 : rexp (a * 2 ^ 1) e <= 0).
  { apply (rexp_small _ _ 13); try lia.
    change (2 ^ 1) with 2. change (2 ^ 13) with 8192. nia. }
  assert (Hbig : bound q <= rfloor (a * 2 ^ 1) e).
  { destruct (Z_le_gt_dec (bound q) (rfloor (a * 2 ^ 1) e)) as [|Hgt];
      [assumption|exfalso].
    assert (Hb : bound_holds (S754_finite false m e) q = true).
    { apply (bound_holds_iff m e q Hv Hq). rewrite Haq. split; lia. }
    congruence. }
  rewrite (rfloor_double a e Ha Hge H0 ltac:(lia)).
  apply Z.div_le_mono; lia.
Qed.

Lemma rfloor_after_failed (m : positive) (e q p : Z) :
  let t := S754_finite false m e in
  Float32.valid t = true -> In q prescalers -> In p prescalers ->
  bound q = 4080 ->
  175 * Z.quot LsiFreq q <= 351 * Z.quot LsiFreq p ->
  bound_holds t q = false -> bound_holds t p = true ->
  2033 <= rfloor (Zpos m * Z.quot LsiFreq p) e.
Proof.
  intros t Hv Hq Hp Hcq Hk Hbq Hbp. subst t.
  destruct (counts_spec m e p Hv Hp Hbp) as (Hge & H12 & _ & Hlt).
  destruct (bound_holds_lt m e p Hv Hp Hbp) as [He Hx].
  destruct (prescaler_quot p Hp) as (_ & Hkp & _ & _).
  set (a := Zpos m * Z.quot LsiFreq p) in *.
  assert (Ha : 0 < a) by (unfold a; nia).
  assert (Hpn : 0 < 2 ^ (- e)) by (apply Z.pow_pos_nonneg; lia).
  assert (Hq' : 4079 * 2 ^ (- e) < Zpos m * Z.quot LsiFreq q).
  { destruct (Z_lt_ge_dec (4079 * 2 ^ (- e)) (Zpos m * Z.quot LsiFreq q))
      as [|Hsmall]; [assumption|exfalso].
    assert (Hb : bound_holds (S754_finite false m e) q = true).
    { apply bound_holds_intro; try assumption.
      rewrite Z.max_r, Z.max_l by lia. change (2 ^ 0) with 1.
      rewrite Hcq. lia. }
    congruence. }
  apply rfloor_ge; try lia. unfold a. nia.
Qed.

(** The least product for [p2] is not below the greatest product for a
    smaller prescaler [p1], unless the step from [p1] to [p2] is one of
    the inexact ones. *)
Lemma product_step (m : positive) (e p1 p2 : Z) :
  let t := S754_finite false m e in
  Float32.valid t = true -> In p1 prescalers -> In p2 prescalers ->
  p1 < p2 -> ~ In (p1, p2) inexact_steps ->
  bound_holds t p2 = true ->
  (forall q, In q prescalers -> q < p2 -> bound_holds t q = false) ->
  p1 * (bound p1 - 1) <= p2 * rfloor (Zpos m * Z.quot LsiFreq p2) e.
Proof.
  intros t Hv H1 H2 Hlt Hstep Hb Hfail. subst t.
  assert (I4 : In 4 prescalers) by (simpl; tauto).
  assert (I8 : In 8 prescalers) by (simpl; tauto).
  assert (I16 : In 16 prescalers) by (simpl; tauto).
  assert (I32 : In 32 prescalers) by (simpl; tauto).
  assert (I64 : In 64 prescalers) by (simpl; tauto).
  assert (I128 : In 128 prescalers) by (simpl; tauto).
  assert (I256 : In 256 prescalers) by (simpl; tauto).
  assert (L8 : p2 = 8 -> 1023 <= rfloor (Zpos m * Z.quot LsiFreq p2) e).
  { intros ->.
    exact (rfloor_after_failed_double m e 4 8 Hv I4 I8 eq_refl
             (Hfail 4 I4 ltac:(lia)) Hb). }
  assert (L16 : p2 = 16 -> 2033 <= rfloor (Zpos m * Z.quot LsiFreq p2) e).
  { intros ->.
    exact (rfloor_after_failed m e 8 16 Hv I8 I16 eq_refl
             ltac:(vm_compute; discriminate) (Hfail 8 I8 ltac:(lia)) Hb). }
  assert (L32 : p2 = 32 -> 2040 <= rfloor (Zpos m * Z.quot LsiFreq p2) e).
  { intros ->.
    exact (rfloor_after_failed_double m e 16 32 Hv I16 I32 eq_refl
             (Hfail 16 I16 ltac:(lia)) Hb). }
  assert (L64 : p2 = 64 -> 2040 <= rfloor (Zpos m * Z.quot LsiFreq p2) e).
  { intros ->.
    exact (rfloor_after_failed_double m e 32 64 Hv I32 I64 eq_refl
             (Hfail 32 I32 ltac:(lia)) Hb). }
  assert (L128 : p2 = 128 -> 2033 <= rfloor (Zpos m * Z.quot LsiFreq p2) e).
  { intros ->.
    exact (rfloor_after_failed m e 64 128 Hv I64 I128 eq_refl
             ltac:(vm_compute; discriminate) (Hfail 64 I64 ltac:(lia)) Hb). }
  assert (L256 : p2 = 256 -> 2033 <= rfloor (Zpos m * Z.quot LsiFreq p2) e).
  { intros ->.
    exact (rfloor_after_failed m e 128 256 Hv I128 I256 eq_refl
             ltac:(vm_compute; discriminate) (Hfail 128 I128 ltac:(lia)) Hb). }
  set (r := rfloor (Zpos m * Z.quot LsiFreq p2) e) in *.
  clearbody r. clear Hb Hfail I4 I8 I16 I32 I64 I128 I256.
  unfold prescalers in H1, H2. simpl in H1, H2.
  repeat (destruct H1 as [<-|H1]); try contradiction;
    repeat (destruct H2 as [<-|H2]); try contradiction;
    try lia;
    try (exfalso; apply Hstep; unfold inexact_steps; simpl; tauto);
    change (bound 4) with 2047; change (bound 8) with 4080;
    change (bound 16) with 4080; change (bound 32) with 4080;
    change (bound 64) with 4080; change (bound 128) with 4080;
    try specialize (L8 eq_refl); try specialize (L16 eq_refl);
    try specialize (L32 eq_refl); try specialize (L64 eq_refl);
    try specialize (L128 eq_refl); try specialize (L256 eq_refl); lia.
Qed.

(** C7, as the code has it: for valid positive timeouts [t1 < t2], the
    count of each being below the bound of the prescaler selected for it,
    the product of prescaler and reload value for [t2] is at least that for
    [t1], unless the prescalers selected for [t1] and [t2] are 8 and 16,
    64 and 128, or 128 and 256. *)
Theorem product_monotone (t1 t2 : Float32.float) :
  Float32.valid t1 = true -> Float32.valid t2 = true ->
  positive_timeout t1 = true -> Float32.ltb t1 t2 = true ->
  realizable t1 = true -> realizable t2 = true ->
  ~ In (Prescaler t1, Prescaler t2) inexact_steps ->
  product t1 <= product t2.
Proof.
  intros Hv1 Hv2 Hp1 Hlt Hr1 Hr2 Hstep.
  destruct (Z.eq_dec (Prescaler t1) (Prescaler t2)) as [Heq|Hne].
  - now apply product_monotone_same.
  - destruct (positive_realizable_finite t1 Hp1 Hr1) as (m1 & e1 & ->).
    assert (Hp2 : positive_timeout t2 = true).
    { destruct t2 as [s|s| |s m e]; try discriminate Hlt.
      - destruct s; [discriminate Hlt|reflexivity].
      - destruct s; [discriminate Hlt|reflexivity]. }
    destruct (positive_realizable_finite t2 Hp2 Hr2) as (m2 & e2 & ->).
    set (t1 := S754_finite false m1 e1) in *.
    set (t2 := S754_finite false m2 e2) in *.
    unfold realizable in Hr1, Hr2.
    pose proof (Prescaler_in t1) as Hin1.
    pose proof (Prescaler_in t2) as Hin2.
    assert (Hle : Prescaler t1 <= Prescaler t2).
    { apply Prescaler_le; [exact Hin2|].
      exact (bound_holds_antitone m1 m2 e1 e2 _ Hv1 Hv2 Hlt Hin2 Hr2). }
    destruct (reload_bounds_Z m1 e1 _ Hv1 Hin1 Hr1) as (_ & Hrange & _ & _).
    destruct (counts_spec m2 e2 _ Hv2 Hin2 Hr2) as (_ & _ & Hc2 & _).
    pose proof (product_step m2 e2 (Prescaler t1) (Prescaler t2) Hv2 Hin1 Hin2
                  ltac:(lia) Hstep Hr2
                  (fun q Hq Hlt' => Prescaler_smaller_fail t2 q Hq Hlt'))
      as Hst.
    pose proof (Prescaler_range t1) as Hrg.
    unfold product. rewrite !ReloadValue_eq.
    fold t2 in Hc2. rewrite Hc2. fold t1 in Hrange.
    apply Z.le_trans with (2 := Hst).
    apply Z.mul_le_mono_nonneg_l; lia.
Qed.

Lemma product_monotone_witness :
  product Float32.one <= product Float32.eleven.
Proof.
  apply (product_monotone Float32.one Float32.eleven); try reflexivity.
  vm_compute. intros [H|[H|[H|[]]]]; discriminate H.
Defined.

(** The product also decreases across the steps from prescaler 64 to 128
    (5.802734375: 64 * 4079; 5.8056640625: 128 * 2037) and from 128 to 256
    (11.62109375: 128 * 4079; 11.625: 256 * 2034). *)
Lemma product_not_monotone_128_256 :
  Float32.valid below_step_128 = true /\ Float32.valid above_step_128 = true /\
  Float32.ltb below_step_128 above_step_128 = true /\
  realizable below_step_128 = true /\ realizable above_step_128 = true /\
  Prescaler below_step_128 = 64 /\ Prescaler above_step_128 = 128 /\
  product above_step_128 < product below_step_128 /\
  Float32.valid below_step_256 = true /\ Float32.valid above_step_256 = true /\
  Float32.ltb below_step_256 above_step_256 = true /\
  realizable below_step_256 = true /\ realizable above_step_256 = true /\
  Prescaler below_step_256 = 128 /\ Prescaler above_step_256 = 256 /\
  product above_step_256 < product below_step_256.
Proof. repeat split; vm_compute; reflexivity. Qed.
